(** * fix_price_mapping.py: a two-rule regular-expression patcher

    The script reads [app/api/expert-sessions/route.ts], applies two
    [re.sub] substitutions to the text and writes the file back.  This
    development embeds the script in Rocq: Python text as a list of code
    points, the fragment of [re] the two patterns use as a small
    backtracking matcher, [re.sub] as a left-to-right scan, and the file
    operations as a state-and-exception monad over a finite map of files:
    once over the text the script sees, and once over the bytes on disk,
    with the encoding and the line endings of the text layer between. *)

From Stdlib Require Import NArith Ascii String List Lia Bool.
From stdpp Require Import base option list gmap strings.

Open Scope N_scope.
Open Scope nat_scope.
Open Scope list_scope.

(** ** Text *)

Module Text.

(** A Python [str] is a sequence of Unicode code points. *)
Definition char := N.
Definition str := list char.

Definition of_ascii (a : ascii) : char := N_of_ascii a.

(** [lit "abc"] is the text of an ASCII literal. *)
Definition lit (s : string) : str := map of_ascii (list_ascii_of_string s).

(** [\s] on a [str] pattern: the code points for which [str.isspace]
    holds (the interpreter's Unicode whitespace table). *)
Definition whitespace : list N :=
  [9; 10; 11; 12; 13; 28; 29; 30; 31; 32; 133; 160; 5760;
   8192; 8193; 8194; 8195; 8196; 8197; 8198; 8199; 8200; 8201; 8202;
   8232; 8233; 8239; 8287; 12288]%N.

Definition is_space (c : char) : bool := existsb (N.eqb c) whitespace.

End Text.
Export Text.

(** ** The fragment of [re] used by the script *)

Module Re.

(** One character position of a pattern: a literal character or the class
    [\s]. *)
Inductive atom := Lit (c : char) | Space.

(** An atom stands alone or under a greedy [+]. *)
Inductive quant := One | Plus.

(** A pattern is a sequence of quantified atoms.  Both patterns of the
    script are wrapped in one pair of parentheses, so group 1 is the whole
    match. *)
Definition regex := list (atom * quant).

Definition accepts (a : atom) (c : char) : bool :=
  match a with
  | Lit d => N.eqb c d
  | Space => is_space c
  end.

(** Greedy repetition with backtracking: consume as many characters as the
    atom accepts, and give them back one at a time while the rest of the
    pattern [k] fails. *)
Fixpoint greedy (a : atom) (k : str -> option (str * str)) (s : str)
  : option (str * str) :=
  match s with
  | c :: s' =>
      if accepts a c then
        match greedy a k s' with
        | Some (m, rest) => Some (c :: m, rest)
        | None => k s
        end
      else k s
  | [] => k s
  end.

(** [rmatch r s]: match [r] at the start of [s]; the result is the matched
    text and what follows it. *)
Fixpoint rmatch (r : regex) (s : str) {struct r} : option (str * str) :=
  match r with
  | [] => Some ([], s)
  | (a, q) :: r' =>
      match s with
      | c :: s' =>
          if accepts a c then
            match (match q with
                   | One => rmatch r' s'
                   | Plus => greedy a (rmatch r') s'
                   end) with
            | Some (m, rest) => Some (c :: m, rest)
            | None => None
            end
          else None
      | [] => None
      end
  end.

(** *** Reading a pattern string *)

Definition lits (s : str) : regex := map (fun c => (Lit c, One)) s.

(** Characters that are operators when unescaped.  An opening brace that
    does not start a repetition count is an ordinary character; the only
    brace of the script is followed by [\s]. *)
Definition special : list N := map of_ascii (list_ascii_of_string "\.^$*+?[]|()").

(** [items] reads the body of a pattern, most recent item first in [acc]. *)
Fixpoint items (acc : regex) (s : list ascii) : option regex :=
  match s with
  | [] => Some (rev acc)
  | "\"%char :: "s"%char :: s' => items ((Space, One) :: acc) s'
  | "\"%char :: c :: s' =>
      if existsb (N.eqb (of_ascii c)) special
      then items ((Lit (of_ascii c), One) :: acc) s'
      else None
  | "+"%char :: s' =>
      match acc with
      | (a, One) :: acc' => items ((a, Plus) :: acc') s'
      | _ => None
      end
  | c :: s' =>
      if existsb (N.eqb (of_ascii c)) special then None
      else items ((Lit (of_ascii c), One) :: acc) s'
  end.

(** [compile] accepts a pattern of the form [(body)]: one group around
    everything. *)
Definition compile (p : string) : option regex :=
  match list_ascii_of_string p with
  | "("%char :: s =>
      match rev s with
      | ")"%char :: b => items [] (rev b)
      | _ => None
      end
  | _ => None
  end.

(** *** Replacement templates *)

Inductive titem := TChar (c : char) | TGroup (n : nat).

Definition digit (c : ascii) : option nat :=
  let n := nat_of_ascii c in
  if (48 <=? n) && (n <=? 57) then Some (n - 48) else None.

(** A backslash followed by a digit is a group reference, [\n] a newline;
    everything else stands for itself. *)
Fixpoint template (s : list ascii) : list titem :=
  match s with
  | [] => []
  | "\"%char :: "n"%char :: s' => TChar 10%N :: template s'
  | "\"%char :: "\"%char :: s' => TChar (of_ascii "\") :: template s'
  | "\"%char :: c :: s' =>
      match digit c with
      | Some n => TGroup n :: template s'
      | None => TChar (of_ascii "\") :: TChar (of_ascii c) :: template s'
      end
  | c :: s' => TChar (of_ascii c) :: template s'
  end.

(** Group 0 and group 1 are the whole match; the patterns have no other
    group. *)
Definition expand (t : list titem) (m : str) : str :=
  flat_map (fun i => match i with
                     | TChar c => [c]
                     | TGroup 0 | TGroup 1 => m
                     | TGroup _ => []
                     end) t.

(** *** [re.sub] *)

(** The scan of [re.sub(pattern, repl, string)]: at each position try the
    pattern; on a match emit the expanded template and continue after the
    match, otherwise copy one character.  An empty match emits the
    template and copies one character.  [fuel] bounds the number of
    positions visited. *)
Fixpoint sub_loop (fuel : nat) (r : regex) (t : list titem) (s : str) : str :=
  match fuel with
  | O => []
  | S fuel' =>
      match rmatch r s with
      | Some (c :: m, rest) => expand t (c :: m) ++ sub_loop fuel' r t rest
      | Some ([], _) =>
          expand t [] ++
          match s with
          | [] => []
          | c :: s' => c :: sub_loop fuel' r t s'
          end
      | None =>
          match s with
          | [] => []
          | c :: s' => c :: sub_loop fuel' r t s'
          end
      end
  end.

Definition sub (r : regex) (repl : string) (s : str) : str :=
  sub_loop (S (length s)) r (template (list_ascii_of_string repl)) s.

(** What a match [m] is replaced with. *)
Definition expansion (repl : string) (m : str) : str :=
  expand (template (list_ascii_of_string repl)) m.

End Re.
Export Re.

(** ** The two rules of the script *)

Module Script.

Definition pattern1 : string := "(\s+return {\s+\.\.\.session,)".
Definition repl1 : string :=
  "\1\n        price_amount: session.price_cents, // Map price_cents to price_amount for API consistency".

Definition pattern2 : string := "(session: newSession)".
Definition repl2 : string :=
  "session: { ...newSession, price_amount: newSession.price_cents }".

Definition pat1 : regex := default [] (compile pattern1).
Definition pat2 : regex := default [] (compile pattern2).

(** First fix: the GET method. *)
Definition rule1 (content : str) : str := sub pat1 repl1 content.

(** Second fix: the POST method. *)
Definition rule2 (content : str) : str := sub pat2 repl2 content.

(** What the script does to the text between reading and writing. *)
Definition patch (content : str) : str := rule2 (rule1 content).

End Script.
Export Script.

(** ** Declarative meaning of patterns *)

Module Lang.

(** [Res r x r']: reading [x] can take the pattern [r] to the remaining
    pattern [r'].  Under [+] the atom is read at least once. *)
Inductive Res : regex -> str -> regex -> Prop :=
| Res_here r : Res r [] r
| Res_one a r c x r' :
    accepts a c = true -> Res r x r' -> Res ((a, One) :: r) (c :: x) r'
| Res_exit a r c x r' :
    accepts a c = true -> Res r x r' -> Res ((a, Plus) :: r) (c :: x) r'
| Res_loop a r c x r' :
    accepts a c = true -> Res ((a, Plus) :: r) x r' ->
    Res ((a, Plus) :: r) (c :: x) r'.

(** [Lang r m]: the text [m] is an occurrence of the pattern [r]. *)
Definition Lang (r : regex) (m : str) : Prop := Res r m [].

(** The patterns that may remain after one character. *)
Definition nexts (r : regex) : list regex :=
  match r with
  | [] => []
  | (_, One) :: t => [t]
  | (_, Plus) :: t => [t; r]
  end.

Fixpoint tails (r : regex) : list regex :=
  r :: match r with [] => [] | _ :: t => tails t end.

(** No occurrence of [r] anywhere in [s]. *)
Definition NoOcc (r : regex) (s : str) : Prop :=
  forall a m b, s = a ++ m ++ b -> ~ Lang r m.

(** No two occurrences start at the same place. *)
Definition PrefixFree (r : regex) : Prop :=
  forall m e, Lang r m -> Lang r (m ++ e) -> e = [].

(** Every occurrence that starts inside [x] also ends inside [x], whatever
    [y] follows. *)
Definition Clean (r : regex) (x y : str) : Prop :=
  forall x1 x2 m rest,
    x = x1 ++ x2 -> x2 <> [] -> Lang r m -> x2 ++ y = m ++ rest ->
    length m <= length x2.

(** *** Reachable pairs of remainders

    [pairs] lists the pairs of remainders that two patterns can reach by
    reading one and the same text.  It decides overlap questions between
    the patterns and the replacement texts by computation. *)

Definition compatible (a1 a2 : atom) : bool :=
  match a1, a2 with
  | Lit c, Lit d => N.eqb c d
  | Lit c, Space | Space, Lit c => is_space c
  | Space, Space => true
  end.

Fixpoint pairs (fuel : nat) (r1 r2 : regex) : list (regex * regex) :=
  (r1, r2) ::
  match fuel, r1, r2 with
  | S f, (a1, _) :: _, (a2, _) :: _ =>
      if compatible a1 a2 then
        flat_map (fun n1 =>
          flat_map (fun n2 =>
            if length n1 + length n2 <? length r1 + length r2
            then pairs f n1 n2 else [])
            (nexts r2))
          (nexts r1)
      else []
  | _, _, _ => []
  end.

Definition reach (r1 r2 : regex) : list (regex * regex) :=
  pairs (length r1 + length r2) r1 r2.

Definition is_nil {A} (l : list A) : bool :=
  match l with [] => true | _ => false end.

(** Some occurrence of [r1] ends inside or at the end of a text of [r2]. *)
Definition inside (r1 r2 : regex) : bool :=
  existsb (fun pq => is_nil (fst pq)) (reach r1 r2).

(** Some text of [r1] and some text of [r2] are prefixes of one another. *)
Definition touch (r1 r2 : regex) : bool :=
  existsb (fun pq => is_nil (fst pq) || is_nil (snd pq)) (reach r1 r2).

Definition prefix_free (r : regex) : bool :=
  forallb (fun pq => negb (is_nil (fst pq)) || is_nil (snd pq)) (reach r r).

(** No remainder of [r1] in [rs] can go on into a text of [r2]. *)
Definition no_touch_from (rs : list regex) (r2 : regex) : bool :=
  forallb (fun r' => is_nil r' || negb (touch r' r2)) rs.

(** No occurrence of [r1] starts inside a text of [r2]. *)
Definition no_touch_in (r1 r2 : regex) : bool :=
  forallb (fun r' => is_nil r' || negb (touch r1 r')) (tails r2).

(** No occurrence of [r1] lies inside a text of [r2]. *)
Definition none_inside (r1 r2 : regex) : bool :=
  forallb (fun r' => negb (inside r1 r')) (tails r2).

(** No remainder in [rs] can be completed inside a text of [r2]. *)
Definition no_end_from (rs : list regex) (r2 : regex) : bool :=
  forallb (fun r' => is_nil r' || negb (inside r' r2)) rs.

End Lang.
Export Lang.

(** ** The shapes the rules look for and what they put in *)

Module Shapes.

(** A run of whitespace. *)
Definition spaces (w : str) : Prop := Forall (fun c => is_space c = true) w.

(** The shape of rule 1: whitespace, [return {], whitespace,
    [...session,]. *)
Definition spread_return (o : str) : Prop :=
  exists w1 w2, w1 <> [] /\ w2 <> [] /\ spaces w1 /\ spaces w2 /\
    o = w1 ++ lit "return {" ++ w2 ++ lit "...session,".

(** The text rule 1 puts after the spread: a line break, eight blanks, the
    field assignment and its comment. *)
Definition inserted : str :=
  10%N :: lit "        price_amount: session.price_cents, // Map price_cents to price_amount for API consistency".

(** The token of rule 2 and the object expression that replaces it. *)
Definition token : str := lit "session: newSession".
Definition expanded : str :=
  lit "session: { ...newSession, price_amount: newSession.price_cents }".

Definition is_token (o : str) : Prop := o = token.

(** [s] contains a piece of shape [P]. *)
Definition occurs (P : str -> Prop) (s : str) : Prop :=
  exists a o b, s = a ++ o ++ b /\ P o.

(** The pattern of a run of whitespace, for the text before a match. *)
Definition space_run : regex := [(Space, Plus)].

(** The line of the example, and the text the example shows after it:
    two blanks of indentation. *)
Definition example_line : str := lit "return { ...session,".
Definition example_inserted : str :=
  10%N :: lit "  price_amount: session.price_cents, // Map price_cents to price_amount for API consistency".

(** The last character of [a], if any, is not whitespace. *)
Definition ends_solid (a : str) : Prop :=
  forall a1 c, a = a1 ++ [c] -> is_space c = false.

End Shapes.
Export Shapes.

(** ** Files, exceptions and the script *)

Module IO.

Inductive exn :=
| FileNotFoundError
| PermissionError
| UnicodeDecodeError
| UnicodeEncodeError
| UnsupportedOperation.

Inductive mode := R | W.

(** A file on disk: its permissions and its content as text.  [text] is
    [None] when the bytes on disk do not decode in the default encoding. *)
Record file := File { readable : bool; writable : bool; text : option str }.

Inductive event :=
| Open (p : string) (m : mode)
| Read (p : string)
| Write (p : string) (s : str)
| Close (p : string)
| Print (s : str).

(** The process and its surroundings.  [trace] records the operations
    performed, oldest first. *)
Record world := World {
  files : gmap string file;
  argv : list string;
  environ : gmap string string;
  trace : list event
}.

Record handle := Handle { h_path : string; h_mode : mode }.

(** Computations that change the world and may raise. *)
Definition M (A : Type) : Type := world -> (exn + A) * world.

#[export] Instance M_ret : MRet M := fun A x w => (inr x, w).
#[export] Instance M_bind : MBind M := fun A B f m w =>
  match m w with
  | (inl e, w') => (inl e, w')
  | (inr x, w') => f x w'
  end.

Definition raise {A} (e : exn) : M A := fun w => (inl e, w).

Definition log (e : event) : M unit := fun w =>
  (inr tt, World (files w) (argv w) (environ w) (trace w ++ [e])).

Definition set_file (p : string) (f : file) : M unit := fun w =>
  (inr tt, World (<[p := f]> (files w)) (argv w) (environ w) (trace w)).

Definition get_file (p : string) : M (option file) := fun w =>
  (inr (files w !! p), w).

(** [open(p, 'r')] needs an existing, readable file; [open(p, 'w')]
    creates the file or truncates it, and needs write permission on an
    existing one.  Directories are not modelled. *)
Definition open_ (p : string) (m : mode) : M handle :=
  o ← get_file p;
  match m, o with
  | R, None => raise FileNotFoundError
  | R, Some f =>
      if readable f then log (Open p R);; mret (Handle p R)
      else raise PermissionError
  | W, None =>
      set_file p (File true true (Some []));; log (Open p W);;
      mret (Handle p W)
  | W, Some f =>
      if writable f then
        set_file p (File (readable f) true (Some []));; log (Open p W);;
        mret (Handle p W)
      else raise PermissionError
  end.

(** [f.read()]: the whole text. *)
Definition read (h : handle) : M str :=
  match h_mode h with
  | W => raise UnsupportedOperation
  | R =>
      o ← get_file (h_path h);
      match o with
      | None => raise FileNotFoundError
      | Some f =>
          match text f with
          | None => raise UnicodeDecodeError
          | Some s => log (Read (h_path h));; mret s
          end
      end
  end.

(** [f.write(s)]: append to what the handle has written so far. *)
Definition write (h : handle) (s : str) : M unit :=
  match h_mode h with
  | R => raise UnsupportedOperation
  | W =>
      o ← get_file (h_path h);
      match o with
      | None => raise FileNotFoundError
      | Some f =>
          set_file (h_path h)
            (File (readable f) (writable f) (Some (default [] (text f) ++ s)));;
          log (Write (h_path h) s)
      end
  end.

Definition close (h : handle) : M unit := log (Close (h_path h)).

(** [try: body finally: fin]: [fin] runs whether [body] returns or
    raises, and an exception of [body] is raised again. *)
Definition try_finally {A} (body : M A) (fin : M unit) : M A := fun w =>
  match body w with
  | (inl e, w') => (fin;; raise e) w'
  | (inr x, w') => (fin;; mret x) w'
  end.

(** [with open(p, m) as f: body]: the file is closed on the way out. *)
Definition with_open {A} (p : string) (m : mode) (body : handle -> M A) : M A :=
  h ← open_ p m; try_finally (body h) (close h).

Definition print (s : string) : M unit := log (Print (lit s)).

(** The line the script prints when it is done. *)
Definition message : str :=
  lit "Fixed price field mapping in expert-sessions API".

Definition path : string := "app/api/expert-sessions/route.ts".

(** The script, statement by statement. *)
Definition main : M unit :=
  content ← with_open path R (fun f => read f);
  let content := sub pat1 repl1 content in
  let content := sub pat2 repl2 content in
  with_open path W (fun f => write f content);;
  print "Fixed price field mapping in expert-sessions API".

(** Why the first read fails, when it does. *)
Definition read_error (w : world) : option exn :=
  match files w !! path with
  | None => Some FileNotFoundError
  | Some f =>
      if readable f then
        match text f with
        | None => Some UnicodeDecodeError
        | Some _ => None
        end
      else Some PermissionError
  end.

(** Why opening the file for writing fails, when it does. *)
Definition write_error (w : world) : option exn :=
  match files w !! path with
  | Some f => if writable f then None else Some PermissionError
  | None => None
  end.

(** The events a run adds to the trace. *)
Definition new_events (w : world) : list event :=
  drop (length (trace w)) (trace (snd (main w))).

Definition is_write (e : event) : bool :=
  match e with Write _ _ | Open _ W => true | _ => false end.

Definition is_read (e : event) : bool :=
  match e with Read _ => true | _ => false end.

(** The path an event is about; printing is about no path. *)
Definition event_path (e : event) : option string :=
  match e with
  | Open p _ | Read p | Write p _ | Close p => Some p
  | Print _ => None
  end.

(** Discipline of file handles along a trace: [cur] is the handle that is
    open, if any.  A file is opened only when none is open, read only
    through a handle opened for reading, written only through one opened
    for writing, closed only when open, and none is left open at the
    end. *)
Fixpoint handles_ok (cur : option (string * mode)) (l : list event) : bool :=
  match l with
  | [] => match cur with None => true | Some _ => false end
  | Open p m :: l' =>
      match cur with
      | None => handles_ok (Some (p, m)) l'
      | Some _ => false
      end
  | Read p :: l' =>
      match cur with
      | Some (q, R) => String.eqb p q && handles_ok cur l'
      | _ => false
      end
  | Write p _ :: l' =>
      match cur with
      | Some (q, W) => String.eqb p q && handles_ok cur l'
      | _ => false
      end
  | Close p :: l' =>
      match cur with
      | Some (q, _) => String.eqb p q && handles_ok None l'
      | None => false
      end
  | Print _ :: l' => handles_ok cur l'
  end.

End IO.
Export IO.

(** ** The bytes under the text

    [open] is called without [encoding=] and without [newline=], so the
    file objects of the script are text layers over the bytes of the file:
    the bytes are decoded and encoded with the encoding the environment
    selects, and line endings are translated.  The module [IO] above is
    the script as it sees the file, through that layer; this module is
    the same script over the bytes. *)

Module Disk.

Definition bytes := list N.

(** An encoding: both directions may fail. *)
Record codec := Codec {
  decode : bytes -> option str;
  encode : str -> option bytes
}.

(** *** Two encodings *)

Definition latin1_decode (b : bytes) : option str :=
  if forallb (fun x => x <? 256)%N b then Some b else None.

Definition latin1_encode (s : str) : option bytes :=
  if forallb (fun c => c <? 256)%N s then Some s else None.

Definition latin1 : codec := Codec latin1_decode latin1_encode.

(** The payload of a continuation byte [10xxxxxx]. *)
Definition continuation (b : N) : option N :=
  if ((128 <=? b) && (b <=? 191))%N then Some (b - 128)%N else None.

(** Strict UTF-8: no overlong form, no surrogate, nothing above
    U+10FFFF, no truncated sequence. *)
Fixpoint utf8_decode (b : bytes) : option str :=
  match b with
  | [] => Some []
  | b0 :: r0 =>
      if (b0 <? 128)%N then cons b0 <$> utf8_decode r0
      else if (b0 <? 194)%N then None
      else if (b0 <? 224)%N then
        match r0 with
        | b1 :: r1 =>
            match continuation b1 with
            | Some c1 => cons ((b0 - 192) * 64 + c1)%N <$> utf8_decode r1
            | None => None
            end
        | _ => None
        end
      else if (b0 <? 240)%N then
        match r0 with
        | b1 :: b2 :: r2 =>
            match continuation b1, continuation b2 with
            | Some c1, Some c2 =>
                let cp := (((b0 - 224) * 64 + c1) * 64 + c2)%N in
                if ((cp <? 2048) || ((55296 <=? cp) && (cp <=? 57343)))%N
                then None
                else cons cp <$> utf8_decode r2
            | _, _ => None
            end
        | _ => None
        end
      else if (b0 <? 245)%N then
        match r0 with
        | b1 :: b2 :: b3 :: r3 =>
            match continuation b1, continuation b2, continuation b3 with
            | Some c1, Some c2, Some c3 =>
                let cp := ((((b0 - 240) * 64 + c1) * 64 + c2) * 64 + c3)%N in
                if ((cp <? 65536) || (1114111 <? cp))%N then None
                else cons cp <$> utf8_decode r3
            | _, _, _ => None
            end
        | _ => None
        end
      else None
  end.

Definition utf8_encode_char (c : char) : option bytes :=
  if (c <? 128)%N then Some [c]
  else if (c <? 2048)%N then Some [192 + c / 64; 128 + c mod 64]%N
  else if (c <? 65536)%N then
    if ((55296 <=? c) && (c <=? 57343))%N then None
    else Some [224 + c / 4096; 128 + (c / 64) mod 64; 128 + c mod 64]%N
  else if (c <? 1114112)%N then
    Some [240 + c / 262144; 128 + (c / 4096) mod 64;
          128 + (c / 64) mod 64; 128 + c mod 64]%N
  else None.

Fixpoint utf8_encode (s : str) : option bytes :=
  match s with
  | [] => Some []
  | c :: s' =>
      match utf8_encode_char c, utf8_encode s' with
      | Some x, Some y => Some (x ++ y)
      | _, _ => None
      end
  end.

Definition utf8 : codec := Codec utf8_decode utf8_encode.

(** *** Line endings *)

(** Reading with [newline=None]: [\r\n] and a lone [\r] become [\n]. *)
Fixpoint universal_newlines (s : str) : str :=
  match s with
  | [] => []
  | c :: s' =>
      if N.eqb c 13 then
        10%N :: match s' with
                | d :: s'' =>
                    if N.eqb d 10 then universal_newlines s''
                    else universal_newlines s'
                | [] => []
                end
      else c :: universal_newlines s'
  end.

(** Writing with [newline=None]: every [\n] becomes [os.linesep]. *)
Fixpoint translate_newlines (linesep : str) (s : str) : str :=
  match s with
  | [] => []
  | c :: s' =>
      (if N.eqb c 10 then linesep else [c]) ++ translate_newlines linesep s'
  end.

(** *** The machine *)

Record dfile := DFile {
  d_readable : bool;
  d_writable : bool;
  d_bytes : bytes
}.

(** The machine the interpreter runs on.  [locale_codec] is what the
    platform's locale makes of the environment ([LC_ALL], [LC_CTYPE],
    [LANG]); [linesep] is [os.linesep]. *)
Record machine := Machine {
  disk : gmap string dfile;
  m_argv : list string;
  m_environ : gmap string string;
  locale_codec : gmap string string -> codec;
  linesep : str;
  m_trace : list event
}.

(** The encoding of [open] without [encoding=]: UTF-8 in UTF-8 mode
    ([PYTHONUTF8=1]), the encoding of the locale otherwise. *)
Definition text_codec (m : machine) : codec :=
  match m_environ m !! "PYTHONUTF8"%string with
  | Some v => if String.eqb v "1" then utf8 else locale_codec m (m_environ m)
  | None => locale_codec m (m_environ m)
  end.

Definition DM (A : Type) : Type := machine -> (exn + A) * machine.

#[export] Instance DM_ret : MRet DM := fun A x m => (inr x, m).
#[export] Instance DM_bind : MBind DM := fun A B f c m =>
  match c m with
  | (inl e, m') => (inl e, m')
  | (inr x, m') => f x m'
  end.

Definition raise {A} (e : exn) : DM A := fun m => (inl e, m).

Definition log (e : event) : DM unit := fun m =>
  (inr tt, Machine (disk m) (m_argv m) (m_environ m) (locale_codec m)
                   (linesep m) (m_trace m ++ [e])).

Definition set_file (p : string) (f : dfile) : DM unit := fun m =>
  (inr tt, Machine (<[p := f]> (disk m)) (m_argv m) (m_environ m)
                   (locale_codec m) (linesep m) (m_trace m)).

Definition get_file (p : string) : DM (option dfile) := fun m =>
  (inr (disk m !! p), m).

Definition get_codec : DM codec := fun m => (inr (text_codec m), m).

Definition get_linesep : DM str := fun m => (inr (linesep m), m).

Definition open_ (p : string) (md : mode) : DM handle :=
  o ← get_file p;
  match md, o with
  | R, None => raise FileNotFoundError
  | R, Some f =>
      if d_readable f then log (Open p R);; mret (Handle p R)
      else raise PermissionError
  | W, None =>
      set_file p (DFile true true []);; log (Open p W);;
      mret (Handle p W)
  | W, Some f =>
      if d_writable f then
        set_file p (DFile (d_readable f) true []);; log (Open p W);;
        mret (Handle p W)
      else raise PermissionError
  end.

(** [f.read()]: decode all the bytes, then translate the line endings. *)
Definition read (h : handle) : DM str :=
  match h_mode h with
  | W => raise UnsupportedOperation
  | R =>
      o ← get_file (h_path h);
      match o with
      | None => raise FileNotFoundError
      | Some f =>
          c ← get_codec;
          match decode c (d_bytes f) with
          | None => raise UnicodeDecodeError
          | Some s => log (Read (h_path h));; mret (universal_newlines s)
          end
      end
  end.

(** [f.write(s)]: translate the line endings, then encode; text that does
    not encode raises and nothing is added to the file. *)
Definition write (h : handle) (s : str) : DM unit :=
  match h_mode h with
  | R => raise UnsupportedOperation
  | W =>
      o ← get_file (h_path h);
      match o with
      | None => raise FileNotFoundError
      | Some f =>
          c ← get_codec;
          sep ← get_linesep;
          match encode c (translate_newlines sep s) with
          | None => raise UnicodeEncodeError
          | Some b =>
              set_file (h_path h)
                (DFile (d_readable f) (d_writable f) (d_bytes f ++ b));;
              log (Write (h_path h) s)
          end
      end
  end.

Definition close (h : handle) : DM unit := log (Close (h_path h)).

Definition try_finally {A} (body : DM A) (fin : DM unit) : DM A := fun m =>
  match body m with
  | (inl e, m') => (fin;; raise e) m'
  | (inr x, m') => (fin;; mret x) m'
  end.

Definition with_open {A} (p : string) (md : mode) (body : handle -> DM A)
  : DM A :=
  h ← open_ p md; try_finally (body h) (close h).

Definition print (s : string) : DM unit := log (Print (lit s)).

(** The script, statement by statement, over the bytes. *)
Definition main : DM unit :=
  content ← with_open path R (fun f => read f);
  let content := sub pat1 repl1 content in
  let content := sub pat2 repl2 content in
  with_open path W (fun f => write f content);;
  print "Fixed price field mapping in expert-sessions API".

(** The events a run adds to the trace. *)
Definition new_events (m : machine) : list event :=
  drop (length (m_trace m)) (m_trace (snd (main m))).



(** The machine after a run that leaves the files [d] and adds the events
    [l]. *)
Definition after (m : machine) (d : gmap string dfile) (l : list event)
  : machine :=
  Machine d (m_argv m) (m_environ m) (locale_codec m) (linesep m)
          (m_trace m ++ l).

End Disk.

(** * Properties *)

(** ** Residuals and occurrences *)

Section ResFacts.

Implicit Types (r : regex) (x m : str).

Lemma Res_cons_inv r c x r' :
  Res r (c :: x) r' ->
  exists a q t n, r = (a, q) :: t /\ accepts a c = true /\
                  In n (nexts r) /\ Res n x r'.
Proof.
  intros H. inversion H; subst.
  - exists a, One, r0, r0. repeat split; auto. simpl. auto.
  - exists a, Plus, r0, r0. repeat split; auto. simpl. auto.
  - exists a, Plus, r0, ((a, Plus) :: r0). repeat split; auto.
    simpl. auto.
Qed.

Lemma Res_app r x r' y r'' : Res r x r' -> Res r' y r'' -> Res r (x ++ y) r''.
Proof.
  induction 1; intros Hy; simpl; auto.
  - apply Res_one; auto.
  - apply Res_exit; auto.
  - apply Res_loop; auto.
Qed.

Lemma Res_split x : forall r y r'',
  Res r (x ++ y) r'' -> exists r', Res r x r' /\ Res r' y r''.
Proof.
  induction x as [|c x IH]; intros r y r'' H; simpl in *.
  - exists r. split; [constructor | assumption].
  - inversion H; subst.
    + destruct (IH _ _ _ H5) as (r' & H1 & H2). exists r'. split; auto.
      apply Res_one; auto.
    + destruct (IH _ _ _ H5) as (r' & H1 & H2). exists r'. split; auto.
      apply Res_exit; auto.
    + destruct (IH _ _ _ H5) as (r' & H1 & H2). exists r'. split; auto.
      apply Res_loop; auto.
Qed.

Lemma Res_length r x r' : Res r x r' -> length r' <= length r.
Proof. induction 1; simpl in *; lia. Qed.

Lemma Res_nil_inv r r' : Res r [] r' -> r' = r.
Proof. inversion 1; reflexivity. Qed.

Lemma Res_empty x r' : Res [] x r' -> x = [] /\ r' = [].
Proof. inversion 1; auto. Qed.

Lemma Lang_nil r : Lang r [] -> r = [].
Proof. intros H. apply Res_nil_inv in H. auto. Qed.

Lemma Lang_nonempty r m : r <> [] -> Lang r m -> m <> [].
Proof. intros Hr H ->. apply Lang_nil in H. auto. Qed.

Lemma tails_self r : In r (tails r).
Proof. destruct r; simpl; auto. Qed.

Lemma tails_cons i r r' : In r' (tails r) -> In r' (tails (i :: r)).
Proof. intros H. simpl. right. exact H. Qed.

Lemma Res_tails r x r' : Res r x r' -> In r' (tails r).
Proof.
  induction 1; auto using tails_self, tails_cons.
Qed.

(** Reading a non-empty text leaves the pattern whole only inside a
    leading [+]. *)
Lemma Res_same x : forall r,
  Res r x r -> x = [] \/
  exists a t, r = (a, Plus) :: t /\ Forall (fun c => accepts a c = true) x.
Proof.
  induction x as [|c x IH]; intros r H; [left; reflexivity | right].
  inversion H; subst.
  - apply Res_length in H5. simpl in H5. lia.
  - apply Res_length in H5. simpl in H5. lia.
  - exists a, r0. split; [reflexivity|]. constructor; [assumption|].
    destruct (IH _ H5) as [-> | (a' & t' & E & HF)]; [constructor|].
    inversion E; subst. assumption.
Qed.

Lemma Res_nonempty_tail r x r' :
  Res r x r' -> x <> [] -> In r' (tails (tail r)) \/ r' = r.
Proof.
  intros H Hx. destruct x as [|c x]; [congruence|].
  inversion H; subst; simpl.
  - left. eapply Res_tails; eauto.
  - left. eapply Res_tails; eauto.
  - apply Res_tails in H5. simpl in H5. destruct H5 as [<-|H5]; auto.
Qed.

End ResFacts.

(** ** The matcher against the declarative meaning *)

Section MatcherFacts.

Implicit Types (r : regex) (s m rest : str).

Lemma greedy_sound a r k :
  (forall s m rest, k s = Some (m, rest) -> Lang r m /\ s = m ++ rest) ->
  forall s m rest, greedy a k s = Some (m, rest) ->
    (Lang r m \/ Lang ((a, Plus) :: r) m) /\ s = m ++ rest.
Proof.
  intros Hk s. induction s as [|c s IH]; intros m rest H; simpl in H.
  - apply Hk in H as [H ->]. auto.
  - destruct (accepts a c) eqn:Ea.
    + destruct (greedy a k s) as [[m' rest']|] eqn:Eg.
      * inversion H; subst. destruct (IH _ _ eq_refl) as [[L|L] ->].
        -- split; [right; apply Res_exit; auto | reflexivity].
        -- split; [right; apply Res_loop; auto | reflexivity].
      * apply Hk in H as [H E]. auto.
    + apply Hk in H as [H E]. auto.
Qed.

(** A match is an occurrence at the start of the text. *)
Lemma rmatch_sound r : forall s m rest,
  rmatch r s = Some (m, rest) -> Lang r m /\ s = m ++ rest.
Proof.
  induction r as [|[a q] r IH]; intros s m rest H; simpl in H.
  - inversion H; subst. split; [constructor | reflexivity].
  - destruct s as [|c s]; [discriminate|].
    destruct (accepts a c) eqn:Ea; [|discriminate].
    destruct q.
    + destruct (rmatch r s) as [[m' rest']|] eqn:Em; [|discriminate].
      inversion H; subst. destruct (IH _ _ _ Em) as [L ->].
      split; [apply Res_one; auto | reflexivity].
    + destruct (greedy a (rmatch r) s) as [[m' rest']|] eqn:Eg; [|discriminate].
      inversion H; subst.
      destruct (greedy_sound a r _ IH _ _ _ Eg) as [[L|L] ->].
      * split; [apply Res_exit; auto | reflexivity].
      * split; [apply Res_loop; auto | reflexivity].
Qed.

Lemma greedy_some a k s : is_Some (k s) -> is_Some (greedy a k s).
Proof.
  intros H. destruct s as [|c s]; simpl; [assumption|].
  destruct (accepts a c); [|assumption].
  destruct (greedy a k s) as [[m rest]|]; [eexists; reflexivity | assumption].
Qed.

(** Where an occurrence starts, the matcher finds a match. *)
Lemma rmatch_complete_gen r m r' :
  Res r m r' -> forall rest,
  is_Some (rmatch r' rest) -> is_Some (rmatch r (m ++ rest)).
Proof.
  induction 1 as [r | a r c x r' Ha H IH | a r c x r' Ha H IH
                    | a r c x r' Ha H IH]; intros rest Hs; simpl.
  - assumption.
  - rewrite Ha. destruct (IH _ Hs) as [[m' t] ->]. eexists; reflexivity.
  - rewrite Ha.
    destruct (greedy_some a (rmatch r) (x ++ rest) (IH _ Hs)) as [[m' t] ->].
    eexists; reflexivity.
  - rewrite Ha. specialize (IH _ Hs). simpl in IH.
    destruct (x ++ rest) as [|c' y]; [destruct IH; discriminate|].
    simpl. destruct (accepts a c') eqn:Ea'; [|destruct IH; discriminate].
    destruct (greedy a (rmatch r) y) as [[m' t]|];
      [eexists; reflexivity | destruct IH; discriminate].
Qed.

Lemma rmatch_complete r m rest : Lang r m -> is_Some (rmatch r (m ++ rest)).
Proof.
  intros H. eapply rmatch_complete_gen; [exact H|]. simpl. eexists; reflexivity.
Qed.

(** For a prefix-free pattern the match is the occurrence. *)
Lemma rmatch_exact r m rest :
  PrefixFree r -> Lang r m -> rmatch r (m ++ rest) = Some (m, rest).
Proof.
  intros HP L. destruct (rmatch_complete r m rest L) as [[m' rest'] E].
  rewrite E. destruct (rmatch_sound _ _ _ _ E) as [L' Eq].
  apply app_eq_inv in Eq as [(k & -> & ->) | (k & -> & ->)].
  - pose proof (HP m' k L' L) as ->. rewrite app_nil_r. reflexivity.
  - pose proof (HP m k L L') as ->. rewrite app_nil_r. reflexivity.
Qed.

Lemma rmatch_none_noocc r s :
  rmatch r s = None -> forall m rest, s = m ++ rest -> ~ Lang r m.
Proof.
  intros H m rest -> L. destruct (rmatch_complete r m rest L) as [x E].
  congruence.
Qed.

End MatcherFacts.

(** ** The scan of [re.sub] *)

Section SubFacts.

Variable r : regex.
Variable repl : string.
Hypothesis r_nonempty : r <> [].

Implicit Types (s x y m : str).

Lemma sub_loop_fuel t : forall n n' s,
  length s < n -> length s < n' -> sub_loop n r t s = sub_loop n' r t s.
Proof.
  induction n as [|n IH]; intros n' s Hn Hn'; [lia|].
  destruct n' as [|n']; [lia|]. simpl.
  destruct (rmatch r s) as [[m rest]|] eqn:E.
  - destruct (rmatch_sound _ _ _ _ E) as [L ->].
    destruct m as [|c m].
    + exfalso. eapply Lang_nonempty; eauto.
    + f_equal. apply IH; rewrite length_app in *; simpl in *; lia.
  - destruct s as [|c s]; [reflexivity|]. f_equal. apply IH; simpl in *; lia.
Qed.

Lemma sub_nil : sub r repl [] = [].
Proof.
  unfold sub. simpl. destruct (rmatch r []) as [[m rest]|] eqn:E; [|reflexivity].
  destruct (rmatch_sound _ _ _ _ E) as [L Eq].
  symmetry in Eq. apply app_eq_nil in Eq as [-> _].
  exfalso. eapply Lang_nonempty; eauto.
Qed.

Lemma sub_match s m rest :
  rmatch r s = Some (m, rest) ->
  sub r repl s = expansion repl m ++ sub r repl rest.
Proof.
  intros E. unfold sub at 1. simpl. rewrite E.
  destruct (rmatch_sound _ _ _ _ E) as [L ->].
  destruct m as [|c m]; [exfalso; eapply Lang_nonempty; eauto|].
  unfold expansion. f_equal. unfold sub.
  apply sub_loop_fuel; [rewrite length_app; simpl; lia | lia].
Qed.

Lemma sub_skip c s :
  rmatch r (c :: s) = None -> sub r repl (c :: s) = c :: sub r repl s.
Proof.
  intros E. unfold sub at 1. simpl sub_loop. rewrite E. reflexivity.
Qed.

(** Without an occurrence the text is returned as it is. *)
Lemma sub_id s : NoOcc r s -> sub r repl s = s.
Proof.
  induction s as [|c s IH]; intros H; [apply sub_nil|].
  destruct (rmatch r (c :: s)) as [[m rest]|] eqn:E.
  - destruct (rmatch_sound _ _ _ _ E) as [L Eq].
    exfalso. apply (H [] m rest); auto.
  - rewrite sub_skip by assumption. f_equal. apply IH.
    intros a m b -> L. apply (H (c :: a) m b); auto.
Qed.

Lemma NoOcc_nil : NoOcc r [].
Proof.
  intros a m b E L. symmetry in E.
  apply app_eq_nil in E as [_ E]. apply app_eq_nil in E as [-> _].
  eapply Lang_nonempty; eauto.
Qed.

Lemma NoOcc_app_l x y : NoOcc r (x ++ y) -> NoOcc r x.
Proof.
  intros H a m b -> L. apply (H a m (b ++ y)); auto.
  rewrite <- !app_assoc. reflexivity.
Qed.

Lemma NoOcc_app_r x y : NoOcc r (x ++ y) -> NoOcc r y.
Proof.
  intros H a m b -> L. apply (H (x ++ a) m b); auto.
  rewrite <- !app_assoc. reflexivity.
Qed.

(** A text has an occurrence or it has none. *)
Lemma occ_dec s :
  NoOcc r s \/ exists a m b, s = a ++ m ++ b /\ Lang r m.
Proof.
  induction s as [|c s IH]; [left; apply NoOcc_nil|].
  destruct (rmatch r (c :: s)) as [[m rest]|] eqn:E.
  - destruct (rmatch_sound _ _ _ _ E) as [L Eq].
    right. exists [], m, rest. auto.
  - destruct IH as [IH | (a & m & b & -> & L)].
    + left. intros a m b Eq L. destruct a as [|c' a]; simpl in Eq.
      * eapply rmatch_none_noocc; eauto.
      * inversion Eq; subst. apply (IH a m b); auto.
    + right. exists (c :: a), m, b. auto.
Qed.

(** The result is never shorter when no replacement is shorter than its
    match. *)
Lemma sub_length :
  (forall m, Lang r m -> length m <= length (expansion repl m)) ->
  forall s, length s <= length (sub r repl s).
Proof.
  intros He s. remember (length s) as n eqn:En.
  revert s En. induction n as [n IH] using lt_wf_ind. intros s En.
  destruct s as [|c s]; [simpl in En; lia|].
  destruct (rmatch r (c :: s)) as [[m rest]|] eqn:E.
  - rewrite (sub_match _ _ _ E).
    destruct (rmatch_sound _ _ _ _ E) as [L Eq].
    pose proof (Lang_nonempty _ _ r_nonempty L) as Hm.
    pose proof (He _ L) as Hl.
    assert (length (c :: s) = length m + length rest) as El
      by (rewrite Eq, length_app; reflexivity).
    assert (0 < length m) by (destruct m; simpl; [congruence | lia]).
    specialize (IH (length rest) ltac:(lia) rest eq_refl).
    rewrite length_app. lia.
  - rewrite sub_skip by assumption. simpl in *.
    specialize (IH (length s) ltac:(lia) s eq_refl). lia.
Qed.

Hypothesis r_prefix_free : PrefixFree r.

(** An occurrence at the start is replaced and the scan goes on after
    it. *)
Lemma sub_occ m b :
  Lang r m -> sub r repl (m ++ b) = expansion repl m ++ sub r repl b.
Proof.
  intros L. apply sub_match. apply rmatch_exact; assumption.
Qed.

Lemma Clean_suffix x1 x2 y : Clean r (x1 ++ x2) y -> Clean r x2 y.
Proof.
  intros H a b m rest -> Hb L E.
  apply (H (x1 ++ a) b m rest); auto. rewrite <- app_assoc. reflexivity.
Qed.

(** The scan splits at a place no occurrence straddles. *)
Lemma sub_app x y :
  Clean r x y -> sub r repl (x ++ y) = sub r repl x ++ sub r repl y.
Proof.
  remember (length x) as n eqn:En.
  revert x En. induction n as [n IH] using lt_wf_ind. intros x En HC.
  destruct x as [|c x]; [rewrite sub_nil; reflexivity|].
  destruct (rmatch r ((c :: x) ++ y)) as [[m rest]|] eqn:E.
  - destruct (rmatch_sound _ _ _ _ E) as [L Eq].
    assert (length m <= length (c :: x)) as Hl
      by (apply (HC [] (c :: x) m rest); auto; discriminate).
    pose proof (Lang_nonempty _ _ r_nonempty L) as Hm.
    assert (exists k, c :: x = m ++ k /\ rest = k ++ y) as (k & Ex & ->).
    { apply app_eq_inv in Eq as [(k & E1 & E2) | (k & E1 & E2)].
      - exists k. auto.
      - assert (k = []) as ->.
        { apply (f_equal length) in E1. rewrite length_app in E1.
          destruct k; [reflexivity | simpl in *; lia]. }
        exists []. rewrite app_nil_r in E1. simpl in E2. subst.
        rewrite app_nil_r. auto. }
    rewrite (sub_match _ _ _ E). rewrite Ex.
    rewrite (sub_occ m k) by assumption. rewrite <- app_assoc. f_equal.
    assert (0 < length m) by (destruct m; simpl; [congruence | lia]).
    apply (IH (length k)); auto.
    + apply (f_equal length) in Ex. rewrite length_app in Ex. lia.
    + apply (Clean_suffix m). rewrite <- Ex. assumption.
  - assert (rmatch r (c :: x) = None) as E'.
    { destruct (rmatch r (c :: x)) as [[m rest]|] eqn:E'; [|reflexivity].
      destruct (rmatch_sound _ _ _ _ E') as [L Eq].
      exfalso. eapply (rmatch_none_noocc _ _ E m (rest ++ y)); auto.
      rewrite Eq, <- app_assoc. reflexivity. }
    simpl app at 1. rewrite sub_skip by assumption.
    rewrite (sub_skip _ _ E'). simpl. f_equal.
    apply (IH (length x)); auto.
    + simpl in En. lia.
    + apply (Clean_suffix [c]). assumption.
Qed.

End SubFacts.

(** ** Reachable pairs of remainders *)

Section ReachFacts.

Implicit Types (r : regex) (x m : str).

Lemma accepts_compatible a1 a2 c :
  accepts a1 c = true -> accepts a2 c = true -> compatible a1 a2 = true.
Proof.
  destruct a1 as [c1|], a2 as [c2|]; simpl; intros H1 H2; auto.
  - apply N.eqb_eq in H1, H2. subst. apply N.eqb_refl.
  - apply N.eqb_eq in H1. subst. assumption.
  - apply N.eqb_eq in H2. subst. assumption.
Qed.

Lemma nexts_cases r n : In n (nexts r) -> S (length n) = length r \/ n = r.
Proof.
  destruct r as [|[a [|]] t]; simpl; intros H.
  - contradiction.
  - destruct H as [<-|[]]. auto.
  - destruct H as [<-|[<-|[]]]; auto.
Qed.

Lemma pairs_unfold f r1 r2 a1 q1 t1 a2 q2 t2 :
  r1 = (a1, q1) :: t1 -> r2 = (a2, q2) :: t2 -> compatible a1 a2 = true ->
  pairs (S f) r1 r2 =
  (r1, r2) ::
  flat_map (fun n1 =>
    flat_map (fun n2 =>
      if length n1 + length n2 <? length r1 + length r2
      then pairs f n1 n2 else [])
      (nexts r2))
    (nexts r1).
Proof. intros -> -> H. cbn [pairs]. rewrite H. reflexivity. Qed.

(** Two remainders reached by reading the same text are listed. *)
Lemma pairs_sound x : forall fuel r1 r2 r1' r2',
  length r1 + length r2 <= fuel ->
  Res r1 x r1' -> Res r2 x r2' -> In (r1', r2') (pairs fuel r1 r2).
Proof.
  induction x as [|c x IH]; intros fuel r1 r2 r1' r2' Hf H1 H2.
  - apply Res_nil_inv in H1, H2. subst. destruct fuel; simpl; auto.
  - apply Res_cons_inv in H1 as (a1 & q1 & t1 & n1 & E1 & A1 & N1 & H1).
    apply Res_cons_inv in H2 as (a2 & q2 & t2 & n2 & E2 & A2 & N2 & H2).
    pose proof (accepts_compatible _ _ _ A1 A2) as HC.
    destruct (length n1 + length n2 <? length r1 + length r2) eqn:Hlt.
    + apply Nat.ltb_lt in Hlt.
      destruct fuel as [|f]; [lia|].
      rewrite (pairs_unfold _ _ _ _ _ _ _ _ _ E1 E2 HC). right.
      apply in_flat_map. exists n1. split; [assumption|].
      apply in_flat_map. exists n2. split; [assumption|].
      apply Nat.ltb_lt in Hlt. rewrite Hlt.
      apply IH; auto. apply Nat.ltb_lt in Hlt. lia.
    + apply Nat.ltb_ge in Hlt.
      destruct (nexts_cases _ _ N1) as [L1 | ->];
        destruct (nexts_cases _ _ N2) as [L2 | ->]; try lia.
      apply IH; auto.
Qed.

Lemma reach_sound x r1 r2 r1' r2' :
  Res r1 x r1' -> Res r2 x r2' -> In (r1', r2') (reach r1 r2).
Proof. intros. eapply pairs_sound; eauto. Qed.

Lemma prefix_free_sound r : prefix_free r = true -> PrefixFree r.
Proof.
  intros H m e L1 L2. apply Res_split in L2 as (q & Q1 & Q2).
  pose proof (reach_sound _ _ _ _ _ L1 Q1) as Hin.
  unfold prefix_free in H. rewrite forallb_forall in H.
  specialize (H _ Hin). simpl in H.
  destruct q; [|discriminate]. apply Res_empty in Q2 as [-> _]. reflexivity.
Qed.

(** A text of [r1] that is a prefix of a text of [r2]. *)
Lemma inside_sound r1 r2 m k :
  Lang r1 m -> Lang r2 (m ++ k) -> inside r1 r2 = true.
Proof.
  intros L1 L2. apply Res_split in L2 as (q & Q1 & Q2).
  unfold inside. apply existsb_exists. exists ([], q).
  split; [eapply reach_sound; eauto | reflexivity].
Qed.

(** Texts of [r1] and [r2] that start at the same place. *)
Lemma touch_sound r1 r2 m1 m2 k1 k2 :
  Lang r1 m1 -> Lang r2 m2 -> m1 ++ k1 = m2 ++ k2 -> touch r1 r2 = true.
Proof.
  intros L1 L2 E. unfold touch. apply existsb_exists.
  apply app_eq_inv in E as [(k & -> & ->) | (k & -> & ->)].
  - apply Res_split in L1 as (q & Q1 & Q2).
    exists (q, []). split; [eapply reach_sound; eauto|].
    simpl. apply orb_true_r.
  - apply Res_split in L2 as (q & Q1 & Q2).
    exists ([], q). split; [eapply reach_sound; eauto | reflexivity].
Qed.

End ReachFacts.

(** ** Where the scan may be split *)

Section CleanFacts.

Variables r R : regex.
Hypothesis r_nonempty : r <> [].

Implicit Types (x y m T : str).

Lemma Clean_nil x : Clean r x [].
Proof.
  intros x1 x2 m rest -> Hx L E. rewrite app_nil_r in E.
  rewrite E, length_app. lia.
Qed.

(** An occurrence that starts in [x2] and goes on after it. *)
Lemma straddle x2 y m rest :
  x2 ++ y = m ++ rest -> length x2 < length m ->
  exists m2, m = x2 ++ m2 /\ m2 <> [] /\ y = m2 ++ rest.
Proof.
  intros E Hl. apply app_eq_inv in E as [(k & E1 & E2) | (k & E1 & E2)].
  - subst. rewrite length_app in Hl. lia.
  - exists k. subst. repeat split; auto.
    intros ->. rewrite app_nil_r in Hl. lia.
Qed.

(** No occurrence of [r] starts inside a text of [R]. *)
Lemma no_touch_in_sound T x1 x2 m y rest :
  no_touch_in r R = true -> Lang R T ->
  T = x1 ++ x2 -> x2 <> [] -> Lang r m -> x2 ++ y = m ++ rest -> False.
Proof.
  intros H LT -> Hx L E. apply Res_split in LT as (R' & Q1 & Q2).
  unfold no_touch_in in H. rewrite forallb_forall in H.
  specialize (H R' (Res_tails _ _ _ Q1)).
  destruct R' as [|i R'].
  - apply Res_empty in Q2 as [-> _]. congruence.
  - simpl in H. symmetry in E.
    rewrite (touch_sound _ _ _ _ _ _ L Q2 E) in H. discriminate.
Qed.

Lemma no_touch_in_Clean T y :
  no_touch_in r R = true -> Lang R T -> Clean r T y.
Proof.
  intros H LT x1 x2 m rest E Hx L E'.
  exfalso. eapply no_touch_in_sound; eauto.
Qed.

Lemma no_touch_in_NoOcc T :
  no_touch_in r R = true -> Lang R T -> NoOcc r T.
Proof.
  intros H LT a m b E L.
  apply (no_touch_in_sound T a (m ++ b) m [] b H LT E); auto.
  - intros E'. apply app_eq_nil in E' as [-> _].
    eapply Lang_nonempty; eauto.
  - rewrite app_nil_r. reflexivity.
Qed.

(** No occurrence of [r] that starts in [x] goes on into a text of [R]
    that follows [x], when none of the remainders [rs] it can have at the
    end of [x] touches [R]. *)
Lemma no_touch_from_Clean rs x T y :
  (forall x1 x2 r', x = x1 ++ x2 -> x2 <> [] -> Res r x2 r' -> In r' rs) ->
  no_touch_from rs R = true -> Lang R T -> Clean r x (T ++ y).
Proof.
  intros Hrs H LT x1 x2 m rest Ex Hx L E.
  destruct (Nat.le_gt_cases (length m) (length x2)) as [|Hl]; [assumption|].
  exfalso. destruct (straddle _ _ _ _ E Hl) as (m2 & -> & Hm2 & E2).
  apply Res_split in L as (r' & Q1 & Q2).
  unfold no_touch_from in H. rewrite forallb_forall in H.
  specialize (H r' (Hrs _ _ _ Ex Hx Q1)).
  destruct r' as [|i r'].
  - apply Res_empty in Q2 as [-> _]. congruence.
  - simpl in H. symmetry in E2.
    rewrite (touch_sound _ _ _ _ _ _ Q2 LT E2) in H. discriminate.
Qed.

(** The same when the text of [R] is all that follows. *)
Lemma no_end_from_Clean rs x T :
  (forall x1 x2 r', x = x1 ++ x2 -> x2 <> [] -> Res r x2 r' -> In r' rs) ->
  no_end_from rs R = true -> Lang R T -> Clean r x T.
Proof.
  intros Hrs H LT x1 x2 m rest Ex Hx L E.
  destruct (Nat.le_gt_cases (length m) (length x2)) as [|Hl]; [assumption|].
  exfalso. destruct (straddle _ _ _ _ E Hl) as (m2 & -> & Hm2 & E2).
  apply Res_split in L as (r' & Q1 & Q2).
  unfold no_end_from in H. rewrite forallb_forall in H.
  specialize (H r' (Hrs _ _ _ Ex Hx Q1)).
  destruct r' as [|i r'].
  - apply Res_empty in Q2 as [-> _]. congruence.
  - simpl in H. subst T.
    rewrite (inside_sound _ _ _ _ Q2 LT) in H. discriminate.
Qed.

Lemma all_tails x : forall x1 x2 r',
  x = x1 ++ x2 -> x2 <> [] -> Res r x2 r' -> In r' (tails r).
Proof. intros x1 x2 r' _ _ H. eapply Res_tails; eauto. Qed.

(** After a pattern that starts with a single atom the remainder is
    shorter. *)
Lemma inner_tails_one a t x :
  r = (a, One) :: t -> forall x1 x2 r',
  x = x1 ++ x2 -> x2 <> [] -> Res r x2 r' -> In r' (tails (tail r)).
Proof.
  intros Er x1 x2 r' _ Hx H.
  destruct (Res_nonempty_tail _ _ _ H Hx) as [ H1 | -> ]; [assumption|].
  apply Res_same in H as [-> | (a' & t' & E & _)]; congruence.
Qed.

End CleanFacts.

(** ** Occurrences of the two patterns *)

Section ShapeFacts.

Implicit Types (r : regex) (m w T : str).

Lemma Res_extend r x r' k : Res r x r' -> Res (r ++ k) x (r' ++ k).
Proof.
  induction 1; simpl.
  - constructor.
  - apply Res_one; auto.
  - apply Res_exit; auto.
  - apply Res_loop; auto.
Qed.

Lemma Lang_app r1 r2 m1 m2 :
  Lang r1 m1 -> Lang r2 m2 -> Lang (r1 ++ r2) (m1 ++ m2).
Proof.
  intros L1 L2. eapply Res_app; [|exact L2].
  apply (Res_extend _ _ _ r2) in L1. exact L1.
Qed.

Lemma Lang_lit_cons c r m :
  Lang ((Lit c, One) :: r) m <-> exists m', m = c :: m' /\ Lang r m'.
Proof.
  split.
  - intros H. inversion H; subst. simpl in *.
    match goal with H : N.eqb _ _ = true |- _ => apply N.eqb_eq in H; subst end.
    eexists; split; [reflexivity | assumption].
  - intros (m' & -> & L). apply Res_one; [apply N.eqb_refl | exact L].
Qed.

Lemma Lang_lits_app T r m :
  Lang (lits T ++ r) m <-> exists m', m = T ++ m' /\ Lang r m'.
Proof.
  revert m. induction T as [|c T IH]; intros m; simpl.
  - split; [intros H; exists m; auto | intros (m' & -> & H); exact H].
  - rewrite Lang_lit_cons. split.
    + intros (m1 & -> & H). apply IH in H as (m' & -> & H). eauto.
    + intros (m' & -> & H). eexists; split; [reflexivity|].
      apply IH. eauto.
Qed.

Lemma Lang_lits T m : Lang (lits T) m <-> m = T.
Proof.
  rewrite <- (app_nil_r (lits T)), Lang_lits_app. split.
  - intros (m' & -> & H). apply Res_empty in H as [-> _].
    apply app_nil_r.
  - intros ->. exists []. split; [symmetry; apply app_nil_r | constructor].
Qed.

Lemma Lang_space_plus r m :
  Lang ((Space, Plus) :: r) m <->
  exists w m', w <> [] /\ spaces w /\ m = w ++ m' /\ Lang r m'.
Proof.
  split.
  - revert r. induction m as [|c m IH]; intros r H; [inversion H|].
    inversion H as [ | | a0 r0 c0 x0 r0' Ha Hr | a0 r0 c0 x0 r0' Ha Hr ]; subst.
    + exists [c], m. split; [discriminate|]. split; [|split; auto].
      constructor; [assumption | constructor].
    + destruct (IH _ Hr) as (w & m' & Hw & Sw & -> & L).
      exists (c :: w), m'. split; [discriminate|]. split; [|split; auto].
      constructor; assumption.
  - intros (w & m' & Hw & Sw & -> & L).
    induction Sw as [|c w Hc Sw IH]; [congruence|].
    destruct w as [|c' w]; simpl.
    + apply Res_exit; assumption.
    + apply Res_loop; [assumption|]. apply IH. discriminate.
Qed.

Lemma pat1_eq :
  pat1 = (Space, Plus) :: lits (lit "return {") ++
         (Space, Plus) :: lits (lit "...session,").
Proof. reflexivity. Qed.

Lemma pat2_eq : pat2 = lits token.
Proof. reflexivity. Qed.

(** The occurrences of the first pattern are the pieces of the shape of
    rule 1. *)
Lemma Lang_pat1 o : Lang pat1 o <-> spread_return o.
Proof.
  rewrite pat1_eq, Lang_space_plus. unfold spread_return. split.
  - intros (w1 & m1 & H1 & S1 & -> & L).
    apply Lang_lits_app in L as (m2 & -> & L).
    apply Lang_space_plus in L as (w2 & m3 & H2 & S2 & -> & L).
    apply Lang_lits in L as ->.
    exists w1, w2. auto.
  - intros (w1 & w2 & H1 & H2 & S1 & S2 & ->).
    exists w1, (lit "return {" ++ w2 ++ lit "...session,").
    repeat split; auto.
    apply Lang_lits_app. eexists; split; [reflexivity|].
    apply Lang_space_plus. exists w2, (lit "...session,").
    repeat split; auto. apply Lang_lits. reflexivity.
Qed.

(** The only occurrence of the second pattern is the token. *)
Lemma Lang_pat2 m : Lang pat2 m <-> m = token.
Proof. rewrite pat2_eq. apply Lang_lits. Qed.

Lemma Lang_space_run w : Lang space_run w <-> w <> [] /\ spaces w.
Proof.
  unfold space_run. rewrite Lang_space_plus. split.
  - intros (w1 & m' & H1 & S1 & -> & L). apply Res_empty in L as [-> _].
    rewrite app_nil_r. auto.
  - intros [H S]. exists w, []. rewrite app_nil_r.
    repeat split; auto. constructor.
Qed.

Lemma pat1_nonempty : pat1 <> [].
Proof. discriminate. Qed.

Lemma pat2_nonempty : pat2 <> [].
Proof. discriminate. Qed.

Lemma pat1_prefix_free : PrefixFree pat1.
Proof. apply prefix_free_sound. vm_compute. reflexivity. Qed.

Lemma pat2_prefix_free : PrefixFree pat2.
Proof. apply prefix_free_sound. vm_compute. reflexivity. Qed.

Lemma expand_chars l m : expand (map TChar l) m = l.
Proof.
  unfold expand. induction l as [|c l IH]; simpl; congruence.
Qed.

(** What the two templates expand to. *)
Lemma expansion1 m : expansion repl1 m = m ++ inserted.
Proof.
  unfold expansion.
  change (template (list_ascii_of_string repl1))
    with (TGroup 1 :: map TChar inserted).
  change (m ++ expand (map TChar inserted) m = m ++ inserted).
  rewrite expand_chars. reflexivity.
Qed.

Lemma expansion2 m : expansion repl2 m = expanded.
Proof.
  unfold expansion.
  change (template (list_ascii_of_string repl2)) with (map TChar expanded).
  apply expand_chars.
Qed.

End ShapeFacts.

(** ** Rewriting around a known piece of text *)

Section AroundFacts.

Variables (r R : regex) (repl : string).
Hypothesis r_nonempty : r <> [].
Hypothesis r_prefix_free : PrefixFree r.

(** A text of [R] that no occurrence of [r] can enter from the left or
    start in is passed over unchanged, and the scan of what is before it
    and after it does not depend on it. *)
Lemma sub_around rs x T y :
  (forall x1 x2 r', x = x1 ++ x2 -> x2 <> [] -> Res r x2 r' -> In r' rs) ->
  no_touch_from rs R = true -> no_touch_in r R = true -> Lang R T ->
  sub r repl (x ++ T ++ y) = sub r repl x ++ T ++ sub r repl y.
Proof.
  intros Hrs H1 H2 LT.
  rewrite (sub_app r repl r_nonempty r_prefix_free x (T ++ y))
    by (eapply no_touch_from_Clean; eauto).
  rewrite (sub_app r repl r_nonempty r_prefix_free T y)
    by (eapply no_touch_in_Clean; eauto).
  rewrite (sub_id r repl r_nonempty T)
    by (eapply no_touch_in_NoOcc; eauto).
  reflexivity.
Qed.

(** An occurrence that nothing before it can run into is replaced, and
    the scan of what is before it and after it does not depend on it. *)
Lemma sub_at rs x m y :
  (forall x1 x2 r', x = x1 ++ x2 -> x2 <> [] -> Res r x2 r' -> In r' rs) ->
  no_touch_from rs r = true -> Lang r m ->
  sub r repl (x ++ m ++ y) =
  sub r repl x ++ expansion repl m ++ sub r repl y.
Proof.
  intros Hrs H1 L.
  rewrite (sub_app r repl r_nonempty r_prefix_free x (m ++ y))
    by (eapply no_touch_from_Clean; eauto).
  rewrite (sub_occ r repl r_nonempty r_prefix_free m y L).
  reflexivity.
Qed.

End AroundFacts.

(** ** The two rules *)

Section RuleFacts.

Implicit Types (a b o s w x y : str).

Lemma spaces_app w1 w2 : spaces (w1 ++ w2) <-> spaces w1 /\ spaces w2.
Proof. apply Forall_app. Qed.

(** Every text is a part that does not end in whitespace followed by a
    run of whitespace. *)
Lemma split_trailing a :
  exists a0 w, a = a0 ++ w /\ spaces w /\ ends_solid a0.
Proof.
  induction a as [|c a IH] using rev_ind.
  - exists [], []. repeat split; [constructor|].
    intros a1 c E. destruct a1; discriminate.
  - destruct (is_space c) eqn:Ec.
    + destruct IH as (a0 & w & -> & Sw & Ha0).
      exists a0, (w ++ [c]). rewrite app_assoc. repeat split; auto.
      apply spaces_app. split; [assumption|]. constructor; [assumption|constructor].
    + exists (a ++ [c]), []. rewrite app_nil_r. repeat split; [constructor|].
      intros a1 c' E. apply app_inj_tail in E as [_ <-]. assumption.
Qed.

Lemma spread_return_prepend w o :
  spaces w -> spread_return o -> spread_return (w ++ o).
Proof.
  intros Sw (w1 & w2 & H1 & H2 & S1 & S2 & ->).
  exists (w ++ w1), w2. repeat split; auto.
  - intros E. apply app_eq_nil in E as [_ E]. auto.
  - apply spaces_app. auto.
  - rewrite <- app_assoc. reflexivity.
Qed.

Lemma spaces_no_spread w : spaces w -> NoOcc pat1 w.
Proof.
  intros Sw a m b -> L. apply Lang_pat1 in L as (w1 & w2 & _ & _ & _ & _ & ->).
  apply spaces_app in Sw as [_ Sw]. apply spaces_app in Sw as [Sw _].
  apply spaces_app in Sw as [_ Sw]. apply spaces_app in Sw as [Sw _].
  inversion Sw as [|c l Hc _]; subst. vm_compute in Hc. discriminate.
Qed.

(** What is left of the first pattern at the end of a text that does not
    end in whitespace is a proper remainder. *)
Lemma solid_inner_tails a :
  ends_solid a -> forall x1 x2 r',
  a = x1 ++ x2 -> x2 <> [] -> Res pat1 x2 r' -> In r' (tails (tail pat1)).
Proof.
  intros Ha x1 x2 r' -> Hx H.
  destruct (Res_nonempty_tail _ _ _ H Hx) as [ H1 | -> ]; [assumption|].
  exfalso. apply Res_same in H as [-> | (a' & t' & E & HF)]; [congruence|].
  rewrite pat1_eq in E. inversion E; subst a' t'.
  destruct (exists_last Hx) as (x2' & c & ->).
  apply Forall_app in HF as [_ HF]. inversion HF as [|c0 l Hc _]; subst.
  simpl in Hc. rewrite (Ha (x1 ++ x2') c) in Hc; [discriminate|].
  rewrite app_assoc. reflexivity.
Qed.

(** Rule 1 at an occurrence of its shape. *)
Lemma rule1_spread a o b :
  spread_return o ->
  rule1 (a ++ o ++ b) = rule1 a ++ o ++ inserted ++ rule1 b.
Proof.
  intros Ho. destruct (split_trailing a) as (a0 & w & -> & Sw & Ha0).
  pose proof (spread_return_prepend w o Sw Ho) as HW.
  apply Lang_pat1 in HW. unfold rule1.
  replace ((a0 ++ w) ++ o ++ b) with (a0 ++ (w ++ o) ++ b)
    by (rewrite <- !app_assoc; reflexivity).
  rewrite (sub_at pat1 repl1 pat1_nonempty pat1_prefix_free
             (tails (tail pat1)) a0 (w ++ o) b (solid_inner_tails a0 Ha0)
             ltac:(vm_compute; reflexivity) HW).
  rewrite expansion1.
  assert (sub pat1 repl1 (a0 ++ w) = sub pat1 repl1 a0 ++ w) as ->.
  { rewrite (sub_app pat1 repl1 pat1_nonempty pat1_prefix_free a0 w).
    - rewrite (sub_id pat1 repl1 pat1_nonempty w (spaces_no_spread w Sw)).
      reflexivity.
    - destruct w as [|c w]; [apply Clean_nil|].
      apply (no_end_from_Clean pat1 space_run (tails pat1)).
      + apply all_tails.
      + vm_compute; reflexivity.
      + apply Lang_space_run. split; [discriminate | assumption]. }
  rewrite <- !app_assoc. reflexivity.
Qed.

(** Rule 2 passes over an occurrence of the shape of rule 1 and the text
    rule 1 put after it. *)
Lemma rule2_pass_spread x o y :
  spread_return o ->
  rule2 (x ++ (o ++ inserted) ++ y) = rule2 x ++ (o ++ inserted) ++ rule2 y.
Proof.
  intros Ho. unfold rule2.
  apply (sub_around pat2 (pat1 ++ lits inserted) repl2
           pat2_nonempty pat2_prefix_free (tails (tail pat2))).
  - eapply inner_tails_one. reflexivity.
  - vm_compute; reflexivity.
  - vm_compute; reflexivity.
  - apply Lang_app; [apply Lang_pat1; assumption | apply Lang_lits; reflexivity].
Qed.

(** Rule 1 passes over the token of rule 2. *)
Lemma rule1_pass_token a b :
  rule1 (a ++ token ++ b) = rule1 a ++ token ++ rule1 b.
Proof.
  unfold rule1.
  apply (sub_around pat1 (lits token) repl1
           pat1_nonempty pat1_prefix_free (tails pat1)).
  - apply all_tails.
  - vm_compute; reflexivity.
  - vm_compute; reflexivity.
  - apply Lang_lits; reflexivity.
Qed.

(** Rule 2 at its token. *)
Lemma rule2_token x y :
  rule2 (x ++ token ++ y) = rule2 x ++ expanded ++ rule2 y.
Proof.
  unfold rule2.
  rewrite (sub_at pat2 repl2 pat2_nonempty pat2_prefix_free
             (tails (tail pat2)) x token y).
  - rewrite expansion2. reflexivity.
  - eapply inner_tails_one. reflexivity.
  - vm_compute; reflexivity.
  - apply Lang_pat2. reflexivity.
Qed.

(** Both rules pass over the expression rule 2 puts in. *)
Lemma rule2_pass_expanded x y :
  rule2 (x ++ expanded ++ y) = rule2 x ++ expanded ++ rule2 y.
Proof.
  unfold rule2.
  apply (sub_around pat2 (lits expanded) repl2
           pat2_nonempty pat2_prefix_free (tails (tail pat2))).
  - eapply inner_tails_one. reflexivity.
  - vm_compute; reflexivity.
  - vm_compute; reflexivity.
  - apply Lang_lits; reflexivity.
Qed.

Lemma rule1_pass_expanded x y :
  rule1 (x ++ expanded ++ y) = rule1 x ++ expanded ++ rule1 y.
Proof.
  unfold rule1.
  apply (sub_around pat1 (lits expanded) repl1
           pat1_nonempty pat1_prefix_free (tails pat1)).
  - apply all_tails.
  - vm_compute; reflexivity.
  - vm_compute; reflexivity.
  - apply Lang_lits; reflexivity.
Qed.

End RuleFacts.

(** ** The run of the script *)

Section RunFacts.

(** The run of the script, case by case on the state of the file. *)
Lemma main_spec w :
  main w =
  match files w !! path with
  | None => (inl FileNotFoundError, w)
  | Some f =>
      if readable f then
        match text f with
        | None =>
            (inl UnicodeDecodeError,
             World (files w) (argv w) (environ w)
                   (trace w ++ [Open path R; Close path]))
        | Some s =>
            if writable f then
              (inr tt,
               World (<[path := File (readable f) true (Some (patch s))]> (files w))
                     (argv w) (environ w)
                     (trace w ++ [Open path R; Read path; Close path;
                                  Open path W; Write path (patch s);
                                  Close path; Print message]))
            else
              (inl PermissionError,
               World (files w) (argv w) (environ w)
                     (trace w ++ [Open path R; Read path; Close path]))
        end
      else (inl PermissionError, w)
  end.
Proof.
  destruct w as [fs av en tr].
  unfold main, with_open, try_finally, open_, read, write, close, print,
    get_file, set_file, log, raise, mbind, M_bind, mret, M_ret. simpl.
  destruct (fs !! path) as [f|] eqn:Ef; [|reflexivity].
  destruct (readable f) eqn:Er; [|reflexivity]. simpl. rewrite Ef.
  destruct (text f) as [s|] eqn:Et; simpl.
  - rewrite Ef. destruct (writable f) eqn:Ew; simpl.
    + rewrite lookup_insert_eq. simpl. rewrite insert_insert_eq.
      rewrite <- !app_assoc, Er. reflexivity.
    + rewrite <- !app_assoc. reflexivity.
  - rewrite <- !app_assoc. reflexivity.
Qed.

Lemma new_events_app w l :
  trace (snd (main w)) = trace w ++ l -> new_events w = l.
Proof. intros E. unfold new_events. rewrite E. apply drop_app_length. Qed.

(** The run when the file can be read and written. *)
Lemma main_ok w f s :
  files w !! path = Some f -> readable f = true -> writable f = true ->
  text f = Some s ->
  main w =
  (inr tt,
   World (<[path := File true true (Some (patch s))]> (files w))
         (argv w) (environ w)
         (trace w ++ [Open path R; Read path; Close path;
                      Open path W; Write path (patch s);
                      Close path; Print message])).
Proof.
  intros Ef Er Ew Et. rewrite main_spec, Ef, Er, Et, Ew. reflexivity.
Qed.

End RunFacts.

(** ** Consequences for the two rules together *)

Section PatchFacts.

Implicit Types (a b o s : str).

Lemma noocc1_iff s : NoOcc pat1 s <-> ~ occurs spread_return s.
Proof.
  split.
  - intros H (a & o & b & E & Ho). apply (H a o b E). apply Lang_pat1, Ho.
  - intros H a o b E L. apply H. exists a, o, b. split; [exact E|].
    apply Lang_pat1, L.
Qed.

Lemma noocc2_iff s : NoOcc pat2 s <-> ~ occurs is_token s.
Proof.
  split.
  - intros H (a & o & b & E & Ho). apply (H a o b E). apply Lang_pat2, Ho.
  - intros H a o b E L. apply H. exists a, o, b. split; [exact E|].
    apply Lang_pat2, L.
Qed.

Lemma rule1_id s : ~ occurs spread_return s -> rule1 s = s.
Proof.
  intros H. apply (sub_id pat1 repl1 pat1_nonempty). apply noocc1_iff, H.
Qed.

Lemma rule2_id s : ~ occurs is_token s -> rule2 s = s.
Proof.
  intros H. apply (sub_id pat2 repl2 pat2_nonempty). apply noocc2_iff, H.
Qed.

(** The two rules at an occurrence of the shape of rule 1. *)
Lemma patch_spread a o b :
  spread_return o ->
  patch (a ++ o ++ b) = patch a ++ o ++ inserted ++ patch b.
Proof.
  intros Ho. unfold patch. rewrite (rule1_spread a o b Ho).
  replace (rule1 a ++ o ++ inserted ++ rule1 b)
    with (rule1 a ++ (o ++ inserted) ++ rule1 b)
    by (rewrite <- !app_assoc; reflexivity).
  rewrite (rule2_pass_spread _ o _ Ho). rewrite <- !app_assoc. reflexivity.
Qed.

(** The two rules at the token of rule 2. *)
Lemma patch_token a b :
  patch (a ++ token ++ b) = patch a ++ expanded ++ patch b.
Proof.
  unfold patch. rewrite rule1_pass_token. apply rule2_token.
Qed.

Lemma rule1_length s : length s <= length (rule1 s).
Proof.
  apply (sub_length pat1 repl1 pat1_nonempty).
  intros m _. rewrite expansion1, length_app. lia.
Qed.

Lemma rule2_length s : length s <= length (rule2 s).
Proof.
  apply (sub_length pat2 repl2 pat2_nonempty).
  intros m L. apply Lang_pat2 in L as ->. rewrite expansion2.
  vm_compute. lia.
Qed.

Lemma patch_length s : length s <= length (patch s).
Proof.
  unfold patch. pose proof (rule1_length s). pose proof (rule2_length (rule1 s)).
  lia.
Qed.

Lemma rule2_twice s : rule2 (rule2 s) = rule2 s.
Proof.
  remember (length s) as n eqn:En. revert s En.
  induction n as [n IH] using lt_wf_ind. intros s En.
  destruct (occ_dec pat2 pat2_nonempty s) as [H | (a & m & b & -> & L)].
  - unfold rule2. rewrite !(sub_id pat2 repl2 pat2_nonempty s H). reflexivity.
  - apply Lang_pat2 in L as ->.
    rewrite !length_app in En. change (length token) with 19 in En.
    rewrite rule2_token, rule2_pass_expanded.
    rewrite (IH (length a) ltac:(lia) a eq_refl).
    rewrite (IH (length b) ltac:(lia) b eq_refl). reflexivity.
Qed.

(** Rule 2 does not make an occurrence of the shape of rule 1. *)
Lemma rule1_after_rule2 s : NoOcc pat1 s -> rule1 (rule2 s) = rule2 s.
Proof.
  remember (length s) as n eqn:En. revert s En.
  induction n as [n IH] using lt_wf_ind. intros s En H1.
  destruct (occ_dec pat2 pat2_nonempty s) as [H | (a & m & b & -> & L)].
  - unfold rule2 at 1 2. rewrite (sub_id pat2 repl2 pat2_nonempty s H).
    apply (sub_id pat1 repl1 pat1_nonempty s H1).
  - apply Lang_pat2 in L as ->.
    rewrite !length_app in En. change (length token) with 19 in En.
    rewrite rule2_token, rule1_pass_expanded.
    rewrite (IH (length a) ltac:(lia) a eq_refl)
      by (eapply NoOcc_app_l; eauto).
    rewrite (IH (length b) ltac:(lia) b eq_refl)
      by (eapply NoOcc_app_r, NoOcc_app_r; eauto).
    reflexivity.
Qed.

Lemma second_run_longer s :
  occurs spread_return s -> length (patch s) < length (patch (patch s)).
Proof.
  intros (a & o & b & -> & Ho).
  rewrite (patch_spread a o b Ho).
  rewrite (patch_spread (patch a) o (inserted ++ patch b) Ho).
  pose proof (patch_length (patch a)).
  pose proof (patch_length (inserted ++ patch b)).
  rewrite !length_app in *. change (length inserted) with 98 in *. lia.
Qed.

Lemma second_run_same s :
  ~ occurs spread_return s -> patch (patch s) = patch s.
Proof.
  intros H. unfold patch. rewrite (rule1_id s H).
  rewrite rule1_after_rule2 by (apply noocc1_iff, H).
  apply rule2_twice.
Qed.

Lemma spread_return_example c :
  is_space c = true -> spread_return (c :: example_line).
Proof.
  intros Hc. exists [c], [32%N]. repeat split; try discriminate.
  - constructor; [exact Hc | constructor].
  - constructor; [reflexivity | constructor].
Qed.

(** A text with no occurrence, by computation. *)
Lemma NoOcc_compute r T :
  r <> [] -> no_touch_in r (lits T) = true -> NoOcc r T.
Proof.
  intros Hr H. apply (no_touch_in_NoOcc r (lits T) Hr T H).
  apply Lang_lits. reflexivity.
Qed.

Lemma main_events w :
  new_events w =
  match files w !! path with
  | None => []
  | Some f =>
      if readable f then
        match text f with
        | None => [Open path R; Close path]
        | Some s =>
            if writable f then
              [Open path R; Read path; Close path;
               Open path W; Write path (patch s); Close path; Print message]
            else [Open path R; Read path; Close path]
        end
      else []
  end.
Proof.
  apply new_events_app. rewrite main_spec.
  destruct (files w !! path) as [f|]; [|symmetry; apply app_nil_r].
  destruct (readable f); [|symmetry; apply app_nil_r].
  destruct (text f) as [s|]; [|reflexivity].
  destruct (writable f); reflexivity.
Qed.

End PatchFacts.

(** ** The rules on small inputs *)

Example rule1_two_spreads :
  rule1 (lit "a return { ...session,b" ++ 10%N :: lit "return {  ...session,") =
  lit "a return { ...session," ++ inserted ++ lit "b" ++
  10%N :: lit "return {  ...session," ++ inserted.
Proof. vm_compute. reflexivity. Qed.

Example rule1_needs_space_before :
  rule1 (lit "return { ...session, x") = lit "return { ...session, x".
Proof. vm_compute. reflexivity. Qed.

Example rule2_two_tokens :
  rule2 (lit "session: newSession, session: newSession") =
  expanded ++ lit ", " ++ expanded.
Proof. vm_compute. reflexivity. Qed.

Example patch_both :
  patch (lit "{ return { ...session, session: newSession }") =
  lit "{ return { ...session," ++ inserted ++ lit " " ++ expanded ++ lit " }".
Proof. vm_compute. reflexivity. Qed.

(** * The claims *)

(** ** Rule 1 *)

(** C1: wherever the content has a piece of the shape of rule 1
    (whitespace, [return {], whitespace, [...session,]), the script leaves
    that piece as it is and puts the field assignment with its comment
    right after it, once; what is before and what is after the piece is
    patched on its own.  The same holds for rule 1 alone. *)
Theorem patch_inserts_after_spread a o b :
  spread_return o ->
  rule1 (a ++ o ++ b) = rule1 a ++ o ++ inserted ++ rule1 b /\
  patch (a ++ o ++ b) = patch a ++ o ++ inserted ++ patch b.
Proof.
  intros Ho. split; [apply rule1_spread | apply patch_spread]; exact Ho.
Qed.

Lemma patch_inserts_after_spread_witness :
  spread_return (32%N :: example_line) /\
  patch (lit "{" ++ (32%N :: example_line) ++ lit " id }") =
  patch (lit "{") ++ (32%N :: example_line) ++ inserted ++ patch (lit " id }").
Proof.
  split; [apply spread_return_example; reflexivity|].
  apply (patch_inserts_after_spread (lit "{") (32%N :: example_line) (lit " id }")).
  apply spread_return_example; reflexivity.
Defined.

(** ** Rule 2 *)

(** C2: wherever the content has the token [session: newSession], the
    script puts the expanded object expression in its place, once; what is
    before and what is after the token is patched on its own. *)
Theorem patch_replaces_token a b :
  rule2 (a ++ token ++ b) = rule2 a ++ expanded ++ rule2 b /\
  patch (a ++ token ++ b) = patch a ++ expanded ++ patch b.
Proof. split; [apply rule2_token | apply patch_token]. Qed.

(** ** Running the script twice *)

(** C3, as stated, fails: on a content with both shapes the second run
    changes the file again. *)
Lemma second_run_changes_patched_file :
  let s := lit " return { ...session, session: newSession" in
  occurs spread_return s /\ occurs is_token s /\
  patch (patch s) <> patch s.
Proof.
  repeat split.
  - exists [], (32%N :: example_line), (lit " session: newSession").
    split; [reflexivity | apply spread_return_example; reflexivity].
  - exists (lit " return { ...session, "), token, []. split; reflexivity.
  - intros E. apply (f_equal length) in E. vm_compute in E. discriminate.
Qed.

(** C3, amended: the second run is a no-op on the once-patched content
    when the original content has no piece of the shape of rule 1; when it
    has one, the second run makes the once-patched content longer. *)
Theorem second_run_noop_without_spread s :
  (~ occurs spread_return s -> patch (patch s) = patch s) /\
  (occurs spread_return s -> length (patch s) < length (patch (patch s))).
Proof.
  split; [apply second_run_same | apply second_run_longer].
Qed.

Lemma second_run_noop_without_spread_witness :
  patch (patch (lit "x session: newSession y")) =
  patch (lit "x session: newSession y") /\
  length (patch (32%N :: example_line)) <
  length (patch (patch (32%N :: example_line))).
Proof.
  split.
  - apply (proj1 (second_run_noop_without_spread (lit "x session: newSession y"))).
    apply noocc1_iff.
    apply NoOcc_compute; [discriminate | vm_compute; reflexivity].
  - apply (proj2 (second_run_noop_without_spread (32%N :: example_line))).
    exists [], (32%N :: example_line), [].
    split; [reflexivity | apply spread_return_example; reflexivity].
Defined.

(** ** The example of rule 1 *)

(** C5, as stated, fails: the text after the spread is indented by eight
    blanks, not two, and the line is only rewritten when whitespace comes
    before it. *)
Lemma example_line_indentation_differs :
  patch (32%N :: example_line) = (32%N :: example_line) ++ inserted /\
  patch (32%N :: example_line) <> (32%N :: example_line) ++ example_inserted /\
  patch example_line = example_line.
Proof.
  split; [vm_compute; reflexivity|]. split; [|vm_compute; reflexivity].
  intros E. apply (f_equal length) in E. vm_compute in E. discriminate.
Qed.

(** C5, amended: a line [return { ...session,] with a whitespace
    character before it is rewritten to itself followed by a line break,
    eight blanks and the field assignment with its comment. *)
Theorem patch_example_line a c b :
  is_space c = true ->
  patch (a ++ (c :: example_line) ++ b) =
  patch a ++ (c :: example_line) ++ inserted ++ patch b /\
  inserted =
  10%N :: repeat 32%N 8 ++
  lit "price_amount: session.price_cents, // Map price_cents to price_amount for API consistency".
Proof.
  intros Hc. split; [|reflexivity].
  apply patch_spread, spread_return_example, Hc.
Qed.

Lemma patch_example_line_witness :
  patch (lit "{" ++ (10%N :: example_line) ++ lit "}") =
  patch (lit "{") ++ (10%N :: example_line) ++ inserted ++ patch (lit "}").
Proof.
  apply (proj1 (patch_example_line (lit "{") 10%N (lit "}") eq_refl)).
Defined.

(** ** The run *)

(** C6: when the file can be read and written, the run succeeds, the
    content written is rule 2 applied to rule 1 applied to the content
    read, and the run reads the file once, before the one write. *)
Theorem main_writes_rule2_of_rule1 w f s :
  files w !! path = Some f -> readable f = true -> writable f = true ->
  text f = Some s ->
  fst (main w) = inr tt /\
  files (snd (main w)) !! path = Some (File true true (Some (rule2 (rule1 s)))) /\
  new_events w =
    [Open path R; Read path; Close path;
     Open path W; Write path (rule2 (rule1 s)); Close path; Print message].
Proof.
  intros Ef Er Ew Et.
  rewrite main_events, (main_ok w f s Ef Er Ew Et), Ef, Er, Et, Ew. simpl.
  split; [reflexivity|]. split; [|reflexivity]. apply lookup_insert_eq.
Qed.

Lemma main_writes_rule2_of_rule1_witness :
  let s := lit "  return { ...session, }" in
  let w := World {[ path := File true true (Some s) ]} [] ∅ [] in
  fst (main w) = inr tt /\
  files (snd (main w)) !! path = Some (File true true (Some (rule2 (rule1 s)))) /\
  new_events w =
    [Open path R; Read path; Close path;
     Open path W; Write path (rule2 (rule1 s)); Close path; Print message].
Proof.
  intros s w.
  apply (main_writes_rule2_of_rule1 w (File true true (Some s)) s);
    reflexivity.
Defined.

(** C7: when the first read fails (no file, no read permission, or bytes
    that do not decode) the run ends with that exception, the files are
    as before, nothing is written or printed, and the read is not tried
    again; a failure to open the file for writing ends the run in the
    same way. *)
Theorem read_failure_propagates :
  (forall w e, read_error w = Some e ->
     fst (main w) = inl e /\ files (snd (main w)) = files w /\
     new_events w =
       match e with
       | UnicodeDecodeError => [Open path R; Close path]
       | _ => []
       end) /\
  (forall w e, read_error w = None -> write_error w = Some e ->
     fst (main w) = inl e /\ files (snd (main w)) = files w /\
     new_events w = [Open path R; Read path; Close path]).
Proof.
  split; intros w e.
  - unfold read_error. rewrite main_events, main_spec.
    destruct (files w !! path) as [f|]; [|intros [= <-]; auto].
    destruct (readable f); [|intros [= <-]; auto].
    destruct (text f) as [s|]; [discriminate|]. intros [= <-]. auto.
  - unfold read_error, write_error. rewrite main_events, main_spec.
    destruct (files w !! path) as [f|]; [|discriminate].
    destruct (readable f); [|discriminate].
    destruct (text f) as [s|]; [|discriminate].
    destruct (writable f); [discriminate|]. intros _ [= <-]. auto.
Qed.

Lemma read_failure_propagates_witness :
  let w := World ∅ [] ∅ [] in
  fst (main w) = inl FileNotFoundError /\ files (snd (main w)) = files w /\
  new_events w = [].
Proof.
  intros w. apply (proj1 read_failure_propagates w FileNotFoundError).
  reflexivity.
Defined.

(** ** Algebra of the rules *)

(** C9: rule 2 applied to its own result changes nothing, and the
    expression it puts in contains no occurrence of its pattern. *)
Theorem rule2_idempotent :
  (forall s, rule2 (rule2 s) = rule2 s) /\ NoOcc pat2 expanded.
Proof.
  split; [exact rule2_twice|].
  apply NoOcc_compute; [discriminate | vm_compute; reflexivity].
Qed.

(** C10: the content written is never shorter than the content read, and
    neither rule shortens its input. *)
Theorem patch_never_shortens s :
  length s <= length (rule1 s) /\ length (rule1 s) <= length (patch s) /\
  length s <= length (patch s).
Proof.
  split; [apply rule1_length|]. split; [apply rule2_length | apply patch_length].
Qed.

(** * Further properties of the script *)

(** ** Helper facts *)

Section MoreFacts.

Implicit Types (a b o s : str).

Lemma rule1_strict s : occurs spread_return s -> length s < length (rule1 s).
Proof.
  intros (a & o & b & -> & Ho). rewrite (rule1_spread a o b Ho).
  pose proof (rule1_length a). pose proof (rule1_length b).
  rewrite !length_app. change (length inserted) with 98. lia.
Qed.

Lemma rule2_strict s : occurs is_token s -> length s < length (rule2 s).
Proof.
  intros (a & o & b & -> & ->). rewrite rule2_token.
  pose proof (rule2_length a). pose proof (rule2_length b).
  rewrite !length_app. change (length expanded) with 64.
  change (length token) with 19. lia.
Qed.

Lemma patch_strict1 s : occurs spread_return s -> length s < length (patch s).
Proof.
  intros H. apply rule1_strict in H. unfold patch.
  pose proof (rule2_length (rule1 s)). lia.
Qed.

Lemma patch_strict2 s : occurs is_token s -> length s < length (patch s).
Proof.
  intros (a & o & b & -> & ->). rewrite patch_token.
  pose proof (patch_length a). pose proof (patch_length b).
  rewrite !length_app. change (length expanded) with 64.
  change (length token) with 19. lia.
Qed.

(** Rule 1 does not make a token. *)
Lemma rule2_after_rule1 s : NoOcc pat2 s -> rule2 (rule1 s) = rule1 s.
Proof.
  remember (length s) as n eqn:En. revert s En.
  induction n as [n IH] using lt_wf_ind. intros s En H2.
  destruct (occ_dec pat1 pat1_nonempty s) as [H | (a & m & b & -> & L)].
  - unfold rule1 at 1 2. rewrite (sub_id pat1 repl1 pat1_nonempty s H).
    apply (sub_id pat2 repl2 pat2_nonempty s H2).
  - pose proof (Lang_nonempty _ _ pat1_nonempty L) as Hm.
    assert (0 < length m) by (destruct m; simpl; [congruence | lia]).
    apply Lang_pat1 in L. rewrite !length_app in En.
    rewrite (rule1_spread a m b L).
    replace (rule1 a ++ m ++ inserted ++ rule1 b)
      with (rule1 a ++ (m ++ inserted) ++ rule1 b)
      by (rewrite <- !app_assoc; reflexivity).
    rewrite (rule2_pass_spread _ m _ L).
    rewrite (IH (length a) ltac:(lia) a eq_refl)
      by (eapply NoOcc_app_l; eauto).
    rewrite (IH (length b) ltac:(lia) b eq_refl)
      by (eapply NoOcc_app_r, NoOcc_app_r; eauto).
    reflexivity.
Qed.

Lemma rules_commute s : rule1 (rule2 s) = rule2 (rule1 s).
Proof.
  remember (length s) as n eqn:En. revert s En.
  induction n as [n IH] using lt_wf_ind. intros s En.
  destruct (occ_dec pat2 pat2_nonempty s) as [H | (a & m & b & -> & L)].
  - rewrite (rule2_after_rule1 s H). unfold rule2.
    rewrite (sub_id pat2 repl2 pat2_nonempty s H). reflexivity.
  - apply Lang_pat2 in L as ->.
    rewrite !length_app in En. change (length token) with 19 in En.
    rewrite rule2_token, rule1_pass_expanded, rule1_pass_token, rule2_token.
    rewrite (IH (length a) ltac:(lia) a eq_refl).
    rewrite (IH (length b) ltac:(lia) b eq_refl). reflexivity.
Qed.

Lemma token_sublist_expanded : sublist token expanded.
Proof.
  change token with (lit "session: " ++ lit "newSession").
  change expanded
    with (lit "session: " ++ lit "{ ..." ++ lit "newSession" ++
          lit ", price_amount: newSession.price_cents }").
  apply sublist_app; [reflexivity|].
  apply sublist_inserts_l, sublist_inserts_r. reflexivity.
Qed.

End MoreFacts.

Section SublistFacts.

Variable r : regex.
Variable repl : string.
Hypothesis r_nonempty : r <> [].
Hypothesis expansion_keeps : forall m, Lang r m -> sublist m (expansion repl m).

(** When every replacement keeps the characters of its match in order,
    so does the whole substitution. *)
Lemma sub_sublist : forall s, sublist s (sub r repl s).
Proof.
  intros s. remember (length s) as n eqn:En.
  revert s En. induction n as [n IH] using lt_wf_ind. intros s En.
  destruct s as [|c s]; [apply sublist_nil_l|].
  destruct (rmatch r (c :: s)) as [[m rest]|] eqn:E.
  - rewrite (sub_match r repl r_nonempty _ _ _ E).
    destruct (rmatch_sound _ _ _ _ E) as [L Eq]. rewrite Eq.
    pose proof (Lang_nonempty _ _ r_nonempty L) as Hm.
    assert (0 < length m) by (destruct m; simpl; [congruence | lia]).
    assert (length (c :: s) = length m + length rest) as El
      by (rewrite Eq, length_app; reflexivity).
    apply sublist_app; [apply expansion_keeps, L|].
    apply (IH (length rest)); [lia | reflexivity].
  - rewrite (sub_skip r repl _ _ E). apply sublist_skip.
    apply (IH (length s)); [simpl in En; lia | reflexivity].
Qed.

End SublistFacts.

(** ** The text transformation *)

(** X1: the two fixes can be made in either order: rule 1 after rule 2
    gives the same text as rule 2 after rule 1, which is what the script
    computes. *)
Theorem rules_order_irrelevant s :
  rule1 (rule2 s) = rule2 (rule1 s) /\ patch s = rule1 (rule2 s).
Proof.
  split; [apply rules_commute | symmetry; apply rules_commute].
Qed.

(** X2: the text the script writes never contains the token
    [session: newSession]; neither does the result of rule 2 alone. *)
Theorem patched_has_no_token s :
  NoOcc pat2 (rule2 s) /\ NoOcc pat2 (patch s).
Proof.
  assert (forall x, NoOcc pat2 (rule2 x)) as H.
  { intros x. apply noocc2_iff. intros Ho. apply rule2_strict in Ho.
    rewrite rule2_twice in Ho. lia. }
  split; apply H.
Qed.

(** X3: the script neither removes nor makes a place where rule 1
    applies: the text written has a piece of the shape of rule 1 exactly
    when the text read has one. *)
Theorem patch_keeps_spread_places s :
  occurs spread_return (patch s) <-> occurs spread_return s.
Proof.
  split.
  - intros Hp.
    destruct (occ_dec pat1 pat1_nonempty s) as [H | (a & m & b & E & L)].
    + exfalso. apply rule1_strict in Hp.
      assert (patch s = rule2 s) as E
        by (unfold patch; rewrite (rule1_id s); [reflexivity | apply noocc1_iff, H]).
      rewrite E, (rule1_after_rule2 s H) in Hp. lia.
    + exists a, m, b. split; [exact E | apply Lang_pat1, L].
  - intros (a & o & b & -> & Ho). rewrite (patch_spread a o b Ho).
    exists (patch a), o, (inserted ++ patch b). split; [reflexivity | exact Ho].
Qed.

Lemma patch_keeps_spread_places_witness :
  occurs spread_return (patch (32%N :: example_line)).
Proof.
  apply (proj2 (patch_keeps_spread_places (32%N :: example_line))).
  exists [], (32%N :: example_line), [].
  split; [reflexivity | apply spread_return_example; reflexivity].
Defined.

(** X4: the script only adds characters: the text read is a subsequence
    of the text written, and of the result of each rule. *)
Theorem patch_only_adds s :
  sublist s (rule1 s) /\ sublist s (rule2 s) /\ sublist s (patch s).
Proof.
  assert (forall x, sublist x (rule1 x)) as H1.
  { apply (sub_sublist pat1 repl1 pat1_nonempty).
    intros m _. rewrite expansion1. apply sublist_inserts_r. reflexivity. }
  assert (forall x, sublist x (rule2 x)) as H2.
  { apply (sub_sublist pat2 repl2 pat2_nonempty).
    intros m L. apply Lang_pat2 in L as ->. rewrite expansion2.
    apply token_sublist_expanded. }
  split; [apply H1|]. split; [apply H2|].
  unfold patch. etransitivity; [apply H1 | apply H2].
Qed.

(** X5: the script leaves the text as it is exactly when the text has
    neither a piece of the shape of rule 1 nor the token of rule 2;
    otherwise the text written is longer than the text read. *)
Theorem patch_fixes_only_unmatched s :
  (patch s = s <-> ~ occurs spread_return s /\ ~ occurs is_token s) /\
  (occurs spread_return s \/ occurs is_token s -> length s < length (patch s)).
Proof.
  split; [split|].
  - intros E. split; intros H.
    + apply patch_strict1 in H. rewrite E in H. lia.
    + apply patch_strict2 in H. rewrite E in H. lia.
  - intros [H1 H2]. unfold patch. rewrite (rule1_id s H1). apply (rule2_id s H2).
  - intros [H|H]; [apply patch_strict1 | apply patch_strict2]; exact H.
Qed.

Lemma patch_fixes_only_unmatched_witness :
  length (lit "session: newSession") < length (patch (lit "session: newSession")).
Proof.
  apply (proj2 (patch_fixes_only_unmatched (lit "session: newSession"))).
  right. exists [], token, []. split; reflexivity.
Defined.

(** ** The run *)

(** X6: the confirmation line is printed exactly when the run succeeds,
    and then it is the last thing the run does, after the file has been
    read and closed, then opened for writing, written and closed; a run
    that fails prints nothing. *)
Theorem message_printed_iff_success w :
  match fst (main w) with
  | inr _ =>
      exists t, new_events w =
                [Open path R; Read path; Close path;
                 Open path W; Write path t; Close path; Print message] /\
                files (snd (main w)) !! path = Some (File true true (Some t))
  | inl _ => Forall (fun ev => event_path ev = Some path) (new_events w)
  end.
Proof.
  rewrite main_events, main_spec.
  destruct (files w !! path) as [f|]; [|constructor].
  destruct (readable f) eqn:Er; [|constructor].
  destruct (text f) as [s|]; [|repeat constructor].
  destruct (writable f); simpl; [|repeat constructor].
  exists (patch s). split; [reflexivity | apply lookup_insert_eq].
Qed.

(** X7: in every run, failed or not, a file is read only through a
    handle opened for reading and written only through one opened for
    writing, at most one handle is open at a time, and every handle that
    was opened is closed by the end of the run. *)
Theorem handles_closed_in_every_run w :
  handles_ok None (new_events w) = true.
Proof.
  rewrite main_events.
  destruct (files w !! path) as [f|]; [|reflexivity].
  destruct (readable f); [|reflexivity].
  destruct (text f) as [s|]; [|reflexivity].
  destruct (writable f); reflexivity.
Qed.

(** X8: after a run that succeeds the script can be run again: the second
    run succeeds too and leaves in the file the patch of the patch of the
    original text. *)
Theorem second_run_succeeds w f s :
  files w !! path = Some f -> readable f = true -> writable f = true ->
  text f = Some s ->
  fst (main (snd (main w))) = inr tt /\
  files (snd (main (snd (main w)))) !! path =
    Some (File true true (Some (patch (patch s)))).
Proof.
  intros Ef Er Ew Et. rewrite (main_ok w f s Ef Er Ew Et). simpl.
  rewrite (main_ok _ (File true true (Some (patch s))) (patch s));
    try reflexivity; [|apply lookup_insert_eq].
  simpl. split; [reflexivity | apply lookup_insert_eq].
Qed.

Lemma second_run_succeeds_witness :
  let s := lit "  return { ...session, }" in
  let w := World {[ path := File true true (Some s) ]} [] ∅ [] in
  fst (main (snd (main w))) = inr tt /\
  files (snd (main (snd (main w)))) !! path =
    Some (File true true (Some (patch (patch s)))).
Proof.
  intros s w.
  apply (second_run_succeeds w (File true true (Some s)) s); reflexivity.
Defined.

(** * The run over the bytes *)

Section DiskFacts.

(** The run over the bytes, case by case on the state of the file. *)
Lemma disk_main_spec m :
  Disk.main m =
  match Disk.disk m !! path with
  | None => (inl FileNotFoundError, m)
  | Some f =>
      if Disk.d_readable f then
        match Disk.decode (Disk.text_codec m) (Disk.d_bytes f) with
        | None =>
            (inl UnicodeDecodeError,
             Disk.after m (Disk.disk m) [Open path R; Close path])
        | Some s0 =>
            let s := Disk.universal_newlines s0 in
            if Disk.d_writable f then
              match Disk.encode (Disk.text_codec m)
                      (Disk.translate_newlines (Disk.linesep m) (patch s)) with
              | Some b =>
                  (inr tt,
                   Disk.after m (<[path := Disk.DFile true true b]> (Disk.disk m))
                     [Open path R; Read path; Close path;
                      Open path W; Write path (patch s);
                      Close path; Print message])
              | None =>
                  (inl UnicodeEncodeError,
                   Disk.after m (<[path := Disk.DFile true true []]> (Disk.disk m))
                     [Open path R; Read path; Close path;
                      Open path W; Close path])
              end
            else
              (inl PermissionError,
               Disk.after m (Disk.disk m) [Open path R; Read path; Close path])
        end
      else (inl PermissionError, m)
  end.
Proof.
  destruct m as [d av en lc ls tr]. unfold Disk.after.
  unfold Disk.main, Disk.with_open, Disk.try_finally, Disk.open_, Disk.read,
    Disk.write, Disk.close, Disk.print, Disk.get_file, Disk.set_file,
    Disk.get_codec, Disk.get_linesep, Disk.log, Disk.raise,
    mbind, Disk.DM_bind, mret, Disk.DM_ret. simpl.
  destruct (d !! path) as [f|] eqn:Ef; [|reflexivity].
  destruct (Disk.d_readable f) eqn:Er; [|reflexivity]. simpl. rewrite Ef.
  unfold Disk.text_codec. simpl.
  set (c := match en !! "PYTHONUTF8"%string with
            | Some v => if String.eqb v "1" then Disk.utf8 else lc en
            | None => lc en
            end).
  destruct (Disk.decode c (Disk.d_bytes f)) as [s0|] eqn:Ed; simpl.
  - rewrite Ef. destruct (Disk.d_writable f) eqn:Ew; simpl.
    + rewrite lookup_insert_eq. simpl. fold c.
      destruct (Disk.encode c _) as [b|] eqn:Ee; simpl.
      * rewrite insert_insert_eq, <- !app_assoc, Er. reflexivity.
      * rewrite <- !app_assoc, Er. reflexivity.
    + rewrite <- !app_assoc. reflexivity.
  - rewrite <- !app_assoc. reflexivity.
Qed.

Lemma disk_new_events_app m l :
  Disk.m_trace (snd (Disk.main m)) = Disk.m_trace m ++ l ->
  Disk.new_events m = l.
Proof. intros E. unfold Disk.new_events. rewrite E. apply drop_app_length. Qed.

Lemma disk_main_events m :
  Disk.new_events m =
  match Disk.disk m !! path with
  | None => []
  | Some f =>
      if Disk.d_readable f then
        match Disk.decode (Disk.text_codec m) (Disk.d_bytes f) with
        | None => [Open path R; Close path]
        | Some s0 =>
            let s := Disk.universal_newlines s0 in
            if Disk.d_writable f then
              match Disk.encode (Disk.text_codec m)
                      (Disk.translate_newlines (Disk.linesep m) (patch s)) with
              | Some b =>
                  [Open path R; Read path; Close path;
                   Open path W; Write path (patch s);
                   Close path; Print message]
              | None =>
                  [Open path R; Read path; Close path; Open path W; Close path]
              end
            else [Open path R; Read path; Close path]
        end
      else []
  end.
Proof.
  apply disk_new_events_app. rewrite disk_main_spec.
  destruct (Disk.disk m !! path) as [f|]; [|symmetry; apply app_nil_r].
  destruct (Disk.d_readable f); [|symmetry; apply app_nil_r].
  destruct (Disk.decode _ _) as [s0|]; [|reflexivity]. simpl.
  destruct (Disk.d_writable f); [|reflexivity].
  destruct (Disk.encode _ _) as [b|]; reflexivity.
Qed.




End DiskFacts.

(** ** Encodings and line endings *)

Section CodecFacts.

Open Scope N_scope.

Lemma div64 x c : c < 64 -> (x * 64 + c) / 64 = x.
Proof. intros H. symmetry. apply (N.div_unique _ 64 x c); lia. Qed.

Lemma mod64 x c : c < 64 -> (x * 64 + c) mod 64 = c.
Proof. intros H. symmetry. apply (N.mod_unique _ 64 x c); lia. Qed.

Lemma continuation_inv x c :
  Disk.continuation x = Some c -> c < 64 /\ x = 128 + c.
Proof.
  unfold Disk.continuation.
  destruct (N.leb_spec 128 x); simpl; [|discriminate].
  destruct (N.leb_spec x 191); [|discriminate].
  intros [= <-]. lia.
Qed.

Lemma encode2 b0 c1 :
  194 <= b0 -> b0 < 224 -> c1 < 64 ->
  Disk.utf8_encode_char ((b0 - 192) * 64 + c1) = Some [b0; 128 + c1].
Proof.
  intros H1 H2 H3. unfold Disk.utf8_encode_char.
  destruct (N.ltb_spec ((b0 - 192) * 64 + c1) 128); [lia|].
  destruct (N.ltb_spec ((b0 - 192) * 64 + c1) 2048); [|lia].
  rewrite div64, mod64 by assumption. do 3 f_equal. lia.
Qed.

Lemma encode3 b0 c1 c2 :
  224 <= b0 -> b0 < 240 -> c1 < 64 -> c2 < 64 ->
  let cp := ((b0 - 224) * 64 + c1) * 64 + c2 in
  ((cp <? 2048) || ((55296 <=? cp) && (cp <=? 57343))) = false ->
  Disk.utf8_encode_char cp = Some [b0; 128 + c1; 128 + c2].
Proof.
  intros H1 H2 H3 H4 cp Hc. unfold Disk.utf8_encode_char.
  apply orb_false_iff in Hc as [Ha Hb]. rewrite Hb.
  apply N.ltb_ge in Ha.
  destruct (N.ltb_spec cp 128); [lia|].
  destruct (N.ltb_spec cp 2048); [lia|].
  destruct (N.ltb_spec cp 65536); [|unfold cp in *; lia].
  replace (cp / 4096) with (cp / 64 / 64) by (rewrite N.Div0.div_div; reflexivity).
  unfold cp. rewrite (div64 _ c2), (mod64 _ c2), (div64 _ c1), (mod64 _ c1) by assumption.
  do 3 f_equal. lia.
Qed.

Lemma encode4 b0 c1 c2 c3 :
  240 <= b0 -> b0 < 245 -> c1 < 64 -> c2 < 64 -> c3 < 64 ->
  let cp := (((b0 - 240) * 64 + c1) * 64 + c2) * 64 + c3 in
  ((cp <? 65536) || (1114111 <? cp)) = false ->
  Disk.utf8_encode_char cp = Some [b0; 128 + c1; 128 + c2; 128 + c3].
Proof.
  intros H1 H2 H3 H4 H5 cp Hc. unfold Disk.utf8_encode_char.
  apply orb_false_iff in Hc as [Ha Hb].
  apply N.ltb_ge in Ha, Hb.
  destruct (N.ltb_spec cp 128); [lia|].
  destruct (N.ltb_spec cp 2048); [lia|].
  destruct (N.ltb_spec cp 65536); [lia|].
  destruct (N.ltb_spec cp 1114112); [|lia].
  replace (cp / 262144) with (cp / 64 / 64 / 64)
    by (rewrite !N.Div0.div_div; reflexivity).
  replace (cp / 4096) with (cp / 64 / 64) by (rewrite N.Div0.div_div; reflexivity).
  unfold cp. rewrite (div64 _ c3), (mod64 _ c3), (div64 _ c2), (mod64 _ c2),
    (div64 _ c1), (mod64 _ c1) by assumption.
  do 3 f_equal. lia.
Qed.

(** What strict UTF-8 decodes, it encodes to the same bytes. *)
Lemma utf8_round_trip_len n : forall b s,
  (length b <= n)%nat -> Disk.utf8_decode b = Some s -> Disk.utf8_encode s = Some b.
Proof.
  induction n as [|n IH]; intros b s Hn H.
  - destruct b; [|simpl in Hn; lia]. inversion H. reflexivity.
  - destruct b as [|b0 r0]; [inversion H; reflexivity|].
    simpl in H. simpl in Hn.
    destruct (N.ltb_spec b0 128) as [L1|L1].
    { destruct (Disk.utf8_decode r0) as [s'|] eqn:E; [|discriminate].
      inversion H; subst. simpl.
      unfold Disk.utf8_encode_char. destruct (N.ltb_spec b0 128); [|lia].
      rewrite (IH r0 s') by (auto; lia). reflexivity. }
    destruct (N.ltb_spec b0 194) as [L2|L2]; [discriminate|].
    destruct (N.ltb_spec b0 224) as [L3|L3].
    { destruct r0 as [|b1 r1]; [discriminate|].
      destruct (Disk.continuation b1) as [c1|] eqn:C1; [|discriminate].
      apply continuation_inv in C1 as [C1 ->].
      destruct (Disk.utf8_decode r1) as [s'|] eqn:E; [|discriminate].
      inversion H; subst. cbn [Disk.utf8_encode].
      rewrite encode2 by assumption.
      rewrite (IH r1 s') by (auto; simpl in Hn; lia). reflexivity. }
    destruct (N.ltb_spec b0 240) as [L4|L4].
    { destruct r0 as [|b1 [|b2 r2]]; try discriminate.
      destruct (Disk.continuation b1) as [c1|] eqn:C1; [|discriminate].
      destruct (Disk.continuation b2) as [c2|] eqn:C2; [|discriminate].
      apply continuation_inv in C1 as [C1 ->].
      apply continuation_inv in C2 as [C2 ->].
      cbv zeta in H.
      destruct (_ || _) eqn:Hc in H; [discriminate|].
      destruct (Disk.utf8_decode r2) as [s'|] eqn:E; [|discriminate].
      inversion H; subst. cbn [Disk.utf8_encode].
      rewrite encode3 by assumption.
      rewrite (IH r2 s') by (auto; simpl in Hn; lia). reflexivity. }
    destruct (N.ltb_spec b0 245) as [L5|L5]; [|discriminate].
    destruct r0 as [|b1 [|b2 [|b3 r3]]]; try discriminate.
    destruct (Disk.continuation b1) as [c1|] eqn:C1; [|discriminate].
    destruct (Disk.continuation b2) as [c2|] eqn:C2; [|discriminate].
    destruct (Disk.continuation b3) as [c3|] eqn:C3; [|discriminate].
    apply continuation_inv in C1 as [C1 ->].
    apply continuation_inv in C2 as [C2 ->].
    apply continuation_inv in C3 as [C3 ->].
    cbv zeta in H.
    destruct (_ || _) eqn:Hc in H; [discriminate|].
    destruct (Disk.utf8_decode r3) as [s'|] eqn:E; [|discriminate].
    inversion H; subst. cbn [Disk.utf8_encode].
    rewrite encode4 by assumption.
    rewrite (IH r3 s') by (auto; simpl in Hn; lia). reflexivity.
Qed.

Lemma utf8_round_trip b s :
  Disk.utf8_decode b = Some s -> Disk.utf8_encode s = Some b.
Proof. apply (utf8_round_trip_len (length b)). reflexivity. Qed.

Lemma latin1_round_trip b s :
  Disk.latin1_decode b = Some s -> Disk.latin1_encode s = Some b.
Proof.
  unfold Disk.latin1_decode, Disk.latin1_encode.
  destruct (forallb _ b) eqn:E; [|discriminate].
  intros [= <-]. rewrite E. reflexivity.
Qed.

Close Scope N_scope.

(** Text without a carriage return is read as it is. *)
Lemma universal_newlines_id s :
  ~ In 13%N s -> Disk.universal_newlines s = s.
Proof.
  induction s as [|c s IH]; intros H; [reflexivity|]. simpl.
  destruct (N.eqb_spec c 13) as [->|Hc]; [exfalso; apply H; left; reflexivity|].
  f_equal. apply IH. intros Hin. apply H. right. exact Hin.
Qed.

(** Where the line separator is [\n], text is written as it is. *)
Lemma translate_newlines_lf s : Disk.translate_newlines [10%N] s = s.
Proof.
  induction s as [|c s IH]; [reflexivity|]. simpl. rewrite IH.
  destruct (N.eqb_spec c 10) as [->|Hc]; reflexivity.
Qed.

End CodecFacts.

(** * The claims about bytes and environment *)

Section ByteClaims.

(** A text with no occurrence inside it, by computation. *)
Lemma NoOcc_inside r T : none_inside r (lits T) = true -> NoOcc r T.
Proof.
  intros H a m b E L.
  assert (Lang (lits T) (a ++ m ++ b)) as LT
    by (apply Lang_lits; symmetry; exact E).
  apply Res_split in LT as (R' & Q1 & Q2).
  unfold none_inside in H. rewrite forallb_forall in H.
  specialize (H R' (Res_tails _ _ _ Q1)).
  rewrite (inside_sound _ _ _ _ L Q2) in H. discriminate.
Qed.

Implicit Types (m : Disk.machine) (f : Disk.dfile).






(** The run on a file whose text has no piece of either shape. *)
Lemma unmatched_disk_run m f s0 :
  Disk.disk m !! path = Some f ->
  Disk.d_readable f = true -> Disk.d_writable f = true ->
  Disk.decode (Disk.text_codec m) (Disk.d_bytes f) = Some s0 ->
  ~ occurs spread_return (Disk.universal_newlines s0) ->
  ~ occurs is_token (Disk.universal_newlines s0) ->
  Disk.encode (Disk.text_codec m)
    (Disk.translate_newlines (Disk.linesep m)
       (Disk.universal_newlines s0)) = Some (Disk.d_bytes f) ->
  patch (Disk.universal_newlines s0) = Disk.universal_newlines s0 /\
  fst (Disk.main m) = inr tt /\
  In (Write path (Disk.universal_newlines s0)) (Disk.new_events m) /\
  Disk.disk (snd (Disk.main m)) = Disk.disk m.
Proof.
  intros Ef Er Ew Ed H1 H2 Ee.
  assert (patch (Disk.universal_newlines s0) = Disk.universal_newlines s0) as Ep.
  { unfold patch. rewrite (rule1_id _ H1). apply (rule2_id _ H2). }
  split; [exact Ep|].
  rewrite disk_main_events, disk_main_spec, Ef, Er, Ed. simpl.
  rewrite Ew, Ep, Ee. simpl.
  split; [reflexivity|]. split; [auto 10|].
  apply insert_id. rewrite Ef. destruct f as [r0 w0 b0]. simpl in *.
  subst. reflexivity.
Qed.

End ByteClaims.

(** ** No match *)




(** ** The one file *)




(** * Further properties of the run over the bytes *)


(** X10: where the line separator is [\n] and the encoding is UTF-8 or
    Latin-1, a file that decodes, has no carriage return and no piece of
    either shape is written back with the bytes it had. *)
Theorem lf_file_kept m f s0 :
  Disk.disk m !! path = Some f ->
  Disk.d_readable f = true -> Disk.d_writable f = true ->
  Disk.linesep m = [10%N] ->
  Disk.text_codec m = Disk.utf8 \/ Disk.text_codec m = Disk.latin1 ->
  Disk.decode (Disk.text_codec m) (Disk.d_bytes f) = Some s0 ->
  ~ In 13%N s0 ->
  ~ occurs spread_return s0 -> ~ occurs is_token s0 ->
  fst (Disk.main m) = inr tt /\ Disk.disk (snd (Disk.main m)) = Disk.disk m.
Proof.
  intros Ef Er Ew El Ec Ed Hcr H1 H2.
  pose proof (universal_newlines_id s0 Hcr) as En.
  assert (Disk.encode (Disk.text_codec m) s0 = Some (Disk.d_bytes f)) as Ee.
  { destruct Ec as [Ec|Ec]; rewrite Ec in *; simpl in *.
    - apply utf8_round_trip, Ed.
    - apply latin1_round_trip, Ed. }
  destruct (unmatched_disk_run m f s0 Ef Er Ew Ed) as (_ & E1 & _ & E2).
  - rewrite En. exact H1.
  - rewrite En. exact H2.
  - rewrite En, El, translate_newlines_lf. exact Ee.
  - split; assumption.
Qed.

Lemma lf_file_kept_witness :
  let b := lit "export {};" ++ [10%N] in
  let m := Disk.Machine {[ path := Disk.DFile true true b ]} [] ∅
             (fun _ => Disk.utf8) [10%N] [] in
  fst (Disk.main m) = inr tt /\ Disk.disk (snd (Disk.main m)) = Disk.disk m.
Proof.
  intros b m.
  apply (lf_file_kept m (Disk.DFile true true b) b); try reflexivity.
  - left. reflexivity.
  - vm_compute. intuition discriminate.
  - apply noocc1_iff. apply NoOcc_inside; vm_compute; reflexivity.
  - apply noocc2_iff. apply NoOcc_inside; vm_compute; reflexivity.
Defined.
